(** * VisApp: a 2-D mass-spring-damper grid simulator (main.js)

    Shallow embedding of the simulation engine of [src/main.js] and proofs
    of its specified properties.

    Numbers.  JavaScript numbers are modelled by the real numbers [R]: the
    properties below are statements of exact arithmetic.  [rows] and [cols]
    are natural numbers; on those, [cols - 1] and [rows - 1] are only used
    as loop bounds and in guards [j < cols - 1] inside loops that run for
    [j < cols], where truncated subtraction gives the same iterations.

    Arrays.  A point is the two-element array [[x, y]], modelled as a pair;
    a grid is an array of rows, modelled as a list of lists.  Reading a
    missing row or a component of a missing point raises a TypeError in
    JavaScript; here the computation returns [None].

    State.  The module-level variables [rows], [cols], [positions],
    [velocities], [forces], [prevPositions] and the value of the
    [#task-select] control form the record [State]; the functions of the
    program are computations in a state-and-error monad.

    The source holds two variants of the program with the same
    [initializeGrid], [applySpring], [calculateForces], [updatePositions],
    [updatePosVerlet] and [drawEdges]; the second adds the drag handler.
    Drawing ([drawNodes], and the lines of [drawEdges]) reads the state and
    writes to the page only; of it, the array of edges that [drawEdges]
    builds is modelled. *)

From Stdlib Require Import Reals Lra Lia String.
From stdpp Require Import base option list.

(** ** A state-and-error monad *)

Definition M (S A : Type) : Type := S → option (A * S).

#[global] Instance M_ret {S} : MRet (M S) := λ A a s, Some (a, s).

#[global] Instance M_bind {S} : MBind (M S) :=
  λ A B f m s, match m s with Some (a, s') => f a s' | None => None end.

(** An uncaught exception: the computation stops. *)
Definition throw {S A} : M S A := λ _, None.

Definition get {S} : M S S := λ s, Some (s, s).

Definition modify {S} (f : S → S) : M S () := λ s, Some ((), f s).

Definition liftO {S A} (o : option A) : M S A :=
  match o with Some a => mret a | None => throw end.

(** [if (b) c] without an else branch. *)
Definition when {S} (b : bool) (c : M S ()) : M S () :=
  if b then c else mret ().

(** [for (const i of l) body(i)] *)
Fixpoint forIn {S} (l : list nat) (body : nat → M S ()) : M S () :=
  match l with
  | [] => mret ()
  | i :: l' => body i ;; forIn l' body
  end.

(** [for (let i = 0; i < n; i++) body(i)] *)
Definition forRange {S} (n : nat) (body : nat → M S ()) : M S () :=
  forIn (seq 0 n) body.

(** The final state of a computation, when it does not throw. *)
Definition exec {S A} (m : M S A) (s : S) : option S :=
  match m s with Some (_, s') => Some s' | None => None end.

(** ** Points and grids *)

Abbreviation Vec := (R * R)%type.
Abbreviation Grid := (list (list Vec)).

(** The two indices of a point array: [v[0]] and [v[1]]. *)
Inductive Ix := I0 | I1.

Definition comp (c : Ix) (v : Vec) : R :=
  match c with I0 => v.1 | I1 => v.2 end.

Definition setComp (c : Ix) (x : R) (v : Vec) : Vec :=
  match c with I0 => (x, v.2) | I1 => (v.1, x) end.

(** [g[i][j]] *)
Definition cell (g : Grid) (i j : nat) : option Vec :=
  row ← g !! i; row !! j.

(** [g[i][j][c] = x]: the point must exist. *)
Definition writeCell (g : Grid) (i j : nat) (c : Ix) (x : R) : option Grid :=
  row ← g !! i; v ← row !! j; Some (<[i := <[j := setComp c x v]> row]> g).

(** A grid of exactly [r] rows of [c] points each. *)
Definition wfGrid (r c : nat) (g : Grid) : bool :=
  (length g =? r) && forallb (λ row : list Vec, length row =? c) g.

(** ** The program state *)

Record State := mkState {
  task : string;          (* document.getElementById("task-select").value *)
  rows : nat;
  cols : nat;
  positions : Grid;
  velocities : Grid;
  forces : Grid;
  prevPositions : Grid
}.

Inductive Field := Positions | Velocities | Forces | PrevPositions.

Definition grid (f : Field) (s : State) : Grid :=
  match f with
  | Positions => positions s
  | Velocities => velocities s
  | Forces => forces s
  | PrevPositions => prevPositions s
  end.

Definition setGrid (f : Field) (g : Grid) (s : State) : State :=
  match f with
  | Positions =>
      mkState (task s) (rows s) (cols s) g (velocities s) (forces s) (prevPositions s)
  | Velocities =>
      mkState (task s) (rows s) (cols s) (positions s) g (forces s) (prevPositions s)
  | Forces =>
      mkState (task s) (rows s) (cols s) (positions s) (velocities s) g (prevPositions s)
  | PrevPositions =>
      mkState (task s) (rows s) (cols s) (positions s) (velocities s) (forces s) g
  end.

(** The four arrays have the dimensions [rows] x [cols]. *)
Definition wf (s : State) : bool :=
  wfGrid (rows s) (cols s) (positions s) &&
  wfGrid (rows s) (cols s) (velocities s) &&
  wfGrid (rows s) (cols s) (forces s) &&
  wfGrid (rows s) (cols s) (prevPositions s).

(** [const p = f[i][j]] followed by reads of [p[0]], [p[1]]. *)
Definition rdVec (f : Field) (i j : nat) : M State Vec :=
  s ← get; liftO (cell (grid f s) i j).

(** [f[i][j][c]] *)
Definition rd (f : Field) (i j : nat) (c : Ix) : M State R :=
  v ← rdVec f i j; mret (comp c v).

(** [f[i][j][c] = x] *)
Definition wr (f : Field) (i j : nat) (c : Ix) (x : R) : M State () :=
  s ← get; g ← liftO (writeCell (grid f s) i j c x); modify (setGrid f g).

(** [f[i][j][c] += d], [f[i][j][c] -= d]: read, then write. *)
Definition upd (f : Field) (i j : nat) (c : Ix) (h : R → R) : M State () :=
  x ← rd f i j c; wr f i j c (h x).

(** ** Constants of main.js *)

Local Open Scope R_scope.

Definition timeStep : R := 16 / 1000.          (* 0.016 *)
Definition padding : R := 50.
Definition structuralRestLength : R := 50.
Definition structuralK : R := 20.
Definition structuralDamping : R := 1 / 10.    (* 0.1 *)
Definition shearRestLength : R := structuralRestLength * sqrt 2.
Definition shearK : R := 7.
Definition shearDamping : R := 5 / 100.        (* 0.05 *)
Definition mass : R := 2 / 10.                 (* 0.2 *)

(** ** applySpring *)

Definition applySpring (i1 j1 i2 j2 : nat) (L0 k b : R) : M State () :=
  p1 ← rdVec Positions i1 j1;
  p2 ← rdVec Positions i2 j2;
  v1 ← rdVec Velocities i1 j1;
  v2 ← rdVec Velocities i2 j2;
  let dx := p2.1 - p1.1 in
  let dy := p2.2 - p1.2 in
  let dist := sqrt (dx * dx + dy * dy) in
  if Req_dec_T dist 0 then mret () else
  let dirX := dx / dist in
  let dirY := dy / dist in
  let springFx := k * (dist - L0) * dirX in
  let springFy := k * (dist - L0) * dirY in
  let relVelX := v2.1 - v1.1 in
  let relVelY := v2.2 - v1.2 in
  let relVelDotUnit := relVelX * dirX + relVelY * dirY in
  let dampingFx := b * relVelDotUnit * dirX in
  let dampingFy := b * relVelDotUnit * dirY in
  let Fx := springFx + dampingFx in
  let Fy := springFy + dampingFy in
  upd Forces i1 j1 I0 (λ f, f + Fx / mass);;
  upd Forces i1 j1 I1 (λ f, f + Fy / mass);;
  upd Forces i2 j2 I0 (λ f, f - Fx / mass);;
  upd Forces i2 j2 I1 (λ f, f - Fy / mass).

(** ** calculateForces *)

(** The two spring loops of [calculateForces], for any procedure [spring]
    called in the place of [applySpring]. *)
Definition springPass {S} (spring : nat → nat → nat → nat → R → R → R → M S ())
    (rows cols : nat) (task : string) : M S () :=
  forRange rows (λ i, forRange cols (λ j,
    when (j <? cols - 1)
      (spring i j i (j + 1)%nat structuralRestLength structuralK structuralDamping);;
    when (i <? rows - 1)
      (spring i j (i + 1)%nat j structuralRestLength structuralK structuralDamping)));;
  (* task >= "3": comparison of strings *)
  when (String.leb "3" task)
    (forRange (rows - 1) (λ i, forRange (cols - 1) (λ j,
       spring i j (i + 1)%nat (j + 1)%nat shearRestLength shearK shearDamping;;
       spring (i + 1)%nat j i (j + 1)%nat shearRestLength shearK shearDamping))).

Definition zeroForces (rows cols : nat) : M State () :=
  forRange rows (λ i, forRange cols (λ j,
    wr Forces i j I0 0;;
    wr Forces i j I1 0)).

Definition calculateForces : M State () :=
  s ← get;
  zeroForces (rows s) (cols s);;
  springPass applySpring (rows s) (cols s) (task s).

(** ** drawEdges

    An edge is a pair of references to point arrays of [positions]; the
    reference to [positions[i][j]] is modelled by the index [(i, j)].  The
    result is the array [edges] that is bound to the lines of the drawing. *)

Abbreviation Edge := ((nat * nat) * (nat * nat))%type.

Definition pushEdge (g : Grid) (a b : nat * nat) : M (list Edge) () :=
  _ ← liftO (cell g a.1 a.2);
  _ ← liftO (cell g b.1 b.2);
  modify (λ edges, edges ++ [(a, b)]).

Definition drawEdges (s : State) : option (list Edge) :=
  exec
    (forRange (rows s) (λ i, forRange (cols s) (λ j,
       when (j <? cols s - 1) (pushEdge (positions s) (i, j) (i, (j + 1)%nat));;
       when (i <? rows s - 1) (pushEdge (positions s) (i, j) ((i + 1)%nat, j))));;
     when (String.leb "3" (task s))
       (forRange (rows s - 1) (λ i, forRange (cols s - 1) (λ j,
          pushEdge (positions s) (i, j) ((i + 1)%nat, (j + 1)%nat);;
          pushEdge (positions s) ((i + 1)%nat, j) (i, (j + 1)%nat)))))
    [].

(** ** drawNodes

    The data bound to the circles of the drawing is [positions.flat()]: the
    points of the grid, row after row.  Each circle is drawn at the
    coordinates of its point. *)
Definition drawNodes (s : State) : list Vec := concat (positions s).

(** A procedure that only records the end points it is called with. *)
Definition recordCall (i1 j1 i2 j2 : nat) (L0 k b : R) : M (list Edge) () :=
  modify (λ calls, calls ++ [((i1, j1), (i2, j2))]).

(** The calls of the spring procedure made by one pass of
    [calculateForces] on a [rows] x [cols] grid. *)
Definition springCalls (rows cols : nat) (task : string) : option (list Edge) :=
  exec (springPass recordCall rows cols task) [].

(** ** The integrators, the drag handler and initializeGrid *)

Section Scene.

(** The width and height attributes of the drawing area, as numbers. *)
Variables width height : R.

Definition eulerBody (i j : nat) : M State () :=
  f ← rd Forces i j I0; upd Velocities i j I0 (λ v, v + f * timeStep);;
  f ← rd Forces i j I1; upd Velocities i j I1 (λ v, v + f * timeStep);;
  v ← rd Velocities i j I0; upd Positions i j I0 (λ p, p + v * timeStep);;
  v ← rd Velocities i j I1; upd Positions i j I1 (λ p, p + v * timeStep).

Definition updatePositions : M State () :=
  calculateForces;;
  s ← get;
  forRange (rows s) (λ i, forRange (cols s) (eulerBody i)).

Definition verletBody (i j : nat) : M State () :=
  let h := timeStep in
  x ← rd Positions i j I0;
  y ← rd Positions i j I1;
  px ← rd PrevPositions i j I0;
  py ← rd PrevPositions i j I1;
  ax ← rd Forces i j I0;
  ay ← rd Forces i j I1;
  let newX := 2 * x - px + ax * h * h in
  let newY := 2 * y - py + ay * h * h in
  wr PrevPositions i j I0 x;;
  wr PrevPositions i j I1 y;;
  wr Positions i j I0 newX;;
  wr Positions i j I1 newY;;
  wr Velocities i j I0 ((newX - px) / (2 * h));;
  wr Velocities i j I1 ((newY - py) / (2 * h));;
  p ← rd Positions i j I0;
  wr Positions i j I0 (Rmax padding (Rmin (width - padding) p));;
  p ← rd Positions i j I1;
  wr Positions i j I1 (Rmax padding (Rmin (height - padding) p)).

Definition updatePosVerlet : M State () :=
  calculateForces;;
  s ← get;
  forRange (rows s) (λ i, forRange (cols s) (verletBody i)).

(** [n] consecutive steps. *)
Fixpoint steps (n : nat) (step : M State ()) : M State () :=
  match n with
  | O => mret ()
  | S n' => step;; steps n' step
  end.

(** The drag handler.  Its datum [d] is the point array
    [positions[di][dj]] bound to the dragged circle; [positions[i][j] === d]
    compares references, and holds for [(i, j) = (di, dj)] only. *)
Definition dragSync (di dj i j : nat) : M State () :=
  when (bool_decide ((i, j) = (di, dj)))
    (d0 ← rd Positions di dj I0; wr PrevPositions i j I0 d0;;
     d1 ← rd Positions di dj I1; wr PrevPositions i j I1 d1).

Definition drag (di dj : nat) (ex ey : R) : M State () :=
  wr Positions di dj I0 ex;;
  wr Positions di dj I1 ey;;
  d0 ← rd Positions di dj I0;
  wr Positions di dj I0 (Rmax padding (Rmin (width - padding) d0));;
  d1 ← rd Positions di dj I1;
  wr Positions di dj I1 (Rmax padding (Rmin (height - padding) d1));;
  s ← get;
  forRange (rows s) (λ i, forRange (cols s) (dragSync di dj i)).

(** The arrays built by the two nested loops of pushes. *)
Definition buildGrid (rows cols : nat) (f : nat → nat → Vec) : Grid :=
  map (λ i, map (λ j, f i j) (seq 0 cols)) (seq 0 rows).

Definition initializeGrid : M State () :=
  s ← get;
  let task := task s in
  let '(rows, cols) :=
    if (task =? "1")%string then (1, 2)%nat
    else if (task =? "2")%string then (2, 2)%nat
    else if (task =? "3")%string then (2, 2)%nat
    else if (task =? "4")%string then (3, 3)%nat
    else (rows s, cols s) in
  let xStep := if (1 <? cols)%nat then (width - 2 * padding) / (INR cols - 1) else 0 in
  let yStep := if (1 <? rows)%nat then (height - 2 * padding) / (INR rows - 1) else 0 in
  let yStart := height / 2 - (INR rows - 1) * yStep / 2 in
  let positions := buildGrid rows cols (λ i j, (padding + INR j * xStep, yStart + INR i * yStep)) in
  let velocities := buildGrid rows cols (λ _ _, (0, 0)) in
  let forces := buildGrid rows cols (λ _ _, (0, 0)) in
  (* JSON.parse(JSON.stringify(positions)): a copy sharing nothing with
     [positions]; later writes to one array do not reach the other *)
  let prevPositions := positions in
  modify (λ _, mkState task rows cols positions velocities forces prevPositions);;
  when (task =? "1")%string (upd Positions 0 1 I0 (λ x, x + 20));;
  when (task =? "2")%string (upd Positions 0 1 I1 (λ y, y - 30));;
  when (task =? "3")%string (upd Positions 0 1 I1 (λ y, y - 30));;
  when (task =? "4")%string (upd Positions 1 1 I1 (λ y, y - 40));;
  when (task =? "5")%string
    (let midCol := (cols / 2)%nat in upd Positions 0 midCol I1 (λ y, y - 40)).

(** One frame of the animation: [isRunning] is the module variable, and
    [method] the value of the [#method-select] control, at the time of the
    frame.  [requestAnimationFrame(simulationLoop)] asks for the next
    frame, which is the next call. *)
Definition simulationLoop (isRunning : bool) (method : string) : M State () :=
  if negb isRunning then mret ()
  else if (method =? "euler")%string then updatePositions
  else updatePosVerlet.

(** What happens to the state between two initializations: frames of the
    animation and drag events, in any order. *)
Inductive Event :=
  | Frame (isRunning : bool) (method : string)
  | Drag (di dj : nat) (ex ey : R).

Definition handle (e : Event) : M State () :=
  match e with
  | Frame isRunning method => simulationLoop isRunning method
  | Drag di dj ex ey => drag di dj ex ey
  end.

Fixpoint runEvents (es : list Event) : M State () :=
  match es with
  | [] => mret ()
  | e :: es' => handle e;; runEvents es'
  end.

End Scene.

(** The dragged circle belongs to a point of the grid. *)
Definition onGrid (s : State) (e : Event) : bool :=
  match e with
  | Frame _ _ => true
  | Drag di dj _ _ => (di <? rows s) && (dj <? cols s)
  end.

(** ** Notions used in the statements and proofs *)

(** Vector operations on points. *)
Definition vadd (a b : Vec) : Vec := (a.1 + b.1, a.2 + b.2).
Definition vsub (a b : Vec) : Vec := (a.1 - b.1, a.2 - b.2).
Definition vopp (a : Vec) : Vec := (- a.1, - a.2).
Definition vscale (c : R) (a : Vec) : Vec := (c * a.1, c * a.2).

(** The sum of the vectors of a row, and of all points of a grid. *)
Definition vsum (l : list Vec) : Vec := foldr vadd (0, 0) l.
Definition sumGrid (g : Grid) : Vec := vsum (map vsum g).

(** The grid [g] with the point [(i, j)] replaced, when it exists. *)
Definition setCell (g : Grid) (i j : nat) (v : Vec) : Grid :=
  match g !! i with
  | Some row => <[i := <[j := v]> row]> g
  | None => g
  end.

Definition setPt (f : Field) (i j : nat) (v : Vec) (s : State) : State :=
  setGrid f (setCell (grid f s) i j v) s.

(** The variables that no step of the simulation assigns. *)
Definition hdr (s : State) : string * nat * nat := (task s, rows s, cols s).

(** All that the state holds about one mass point. *)
Record Pt := mkPt { ptPos : Vec; ptVel : Vec; ptForce : Vec; ptPrev : Vec }.

Definition getF (f : Field) (p : Pt) : Vec :=
  match f with
  | Positions => ptPos p
  | Velocities => ptVel p
  | Forces => ptForce p
  | PrevPositions => ptPrev p
  end.

Definition setF (f : Field) (v : Vec) (p : Pt) : Pt :=
  match f with
  | Positions => mkPt v (ptVel p) (ptForce p) (ptPrev p)
  | Velocities => mkPt (ptPos p) v (ptForce p) (ptPrev p)
  | Forces => mkPt (ptPos p) (ptVel p) v (ptPrev p)
  | PrevPositions => mkPt (ptPos p) (ptVel p) (ptForce p) v
  end.

Definition view (s : State) (i j : nat) : option Pt :=
  p ← cell (positions s) i j;
  v ← cell (velocities s) i j;
  f ← cell (forces s) i j;
  pp ← cell (prevPositions s) i j;
  Some (mkPt p v f pp).

(** Total correctness: from a state in [P] the computation [m] does not
    throw, and its result and final state are in [Q]. *)
Definition hoare {S A} (P : S → Prop) (m : M S A) (Q : A → S → Prop) : Prop :=
  ∀ s, P s → ∃ a s', m s = Some (a, s') ∧ Q a s'.

(** [s] differs from [s0] at most in the point [(i, j)], which is [pt]. *)
Definition local (i j : nat) (s0 : State) (pt : Pt) (s : State) : Prop :=
  hdr s = hdr s0 ∧ wf s = wf s0 ∧ view s i j = Some pt ∧
  ∀ i' j', (i', j') ≠ (i, j) → view s i' j' = view s0 i' j'.

(** The points of the loops [for i < n, for j < m] visited before [(k, l)]. *)
Definition visited (m k l i j : nat) : bool :=
  ((i <? k) || ((i =? k) && (j <? l))) && (j <? m).

(** The state reached from [s0] when the points visited before [(k, l)]
    have been transformed by [G], and nothing else has changed. *)
Definition swept (m : nat) (G : nat → nat → Pt → Pt) (s0 : State)
    (k l : nat) (s : State) : Prop :=
  hdr s = hdr s0 ∧ wf s = wf s0 ∧
  ∀ i j, view s i j = if visited m k l i j then G i j <$> view s0 i j else view s0 i j.

(** [s] differs from [s0] at most in the values of the forces. *)
Definition sameButForces (s0 s : State) : Prop :=
  hdr s = hdr s0 ∧ positions s = positions s0 ∧ velocities s = velocities s0 ∧
  prevPositions s = prevPositions s0 ∧ map length (forces s) = map length (forces s0).

(** The invariant of the spring loops: the forces sum to zero. *)
Definition balanced (s0 s : State) : Prop :=
  sameButForces s0 s ∧ sumGrid (forces s) = (0, 0).

(** The spring-plus-damping force of section 4.2 of the specification,
    from the positions and velocities of the two end points: the unit
    vector [u] from A to B and the total force [F] along it. *)
Definition distance (pA pB : Vec) : R :=
  sqrt ((pB.1 - pA.1) * (pB.1 - pA.1) + (pB.2 - pA.2) * (pB.2 - pA.2)).

Definition unitDir (pA pB : Vec) : Vec :=
  ((pB.1 - pA.1) / distance pA pB, (pB.2 - pA.2) / distance pA pB).

Definition totalForce (pA pB vA vB : Vec) (L0 k b : R) : R :=
  let u := unitDir pA pB in
  k * (distance pA pB - L0) + b * ((vB.1 - vA.1) * u.1 + (vB.2 - vA.2) * u.2).

(** [F/mass] along [u], as a vector. *)
Definition forceOverMass (pA pB vA vB : Vec) (L0 k b : R) : Vec :=
  vscale (totalForce pA pB vA vB L0 k b / mass) (unitDir pA pB).

(** What one semi-implicit Euler step does to a point. *)
Definition eulerPt (pt : Pt) : Pt :=
  let v := vadd (ptVel pt) (vscale timeStep (ptForce pt)) in
  mkPt (vadd (ptPos pt) (vscale timeStep v)) v (ptForce pt) (ptPrev pt).

(** [Math.max(lo, Math.min(hi, x))] *)
Definition clamp (lo hi x : R) : R := Rmax lo (Rmin hi x).

(** What one Verlet step does to a point. *)
Definition verletPt (width height : R) (pt : Pt) : Pt :=
  let h := timeStep in
  let newX := 2 * (ptPos pt).1 - (ptPrev pt).1 + (ptForce pt).1 * h * h in
  let newY := 2 * (ptPos pt).2 - (ptPrev pt).2 + (ptForce pt).2 * h * h in
  mkPt (clamp padding (width - padding) newX, clamp padding (height - padding) newY)
       ((newX - (ptPrev pt).1) / (2 * h), (newY - (ptPrev pt).2) / (2 * h))
       (ptForce pt)
       (ptPos pt).

(** What the last loop of the drag handler does to a point. *)
Definition dragSyncPt (di dj i j : nat) (pt : Pt) : Pt :=
  if bool_decide ((i, j) = (di, dj)) then setF PrevPositions (ptPos pt) pt else pt.

(** [F/mass] along [u] for the spring between the points [a] and [c]. *)
Definition springForceOverMass (a c : Pt) (L0 k b : R) : Vec :=
  forceOverMass (ptPos a) (ptPos c) (ptVel a) (ptVel c) L0 k b.

(** A row of two points, at rest at its initial positions. *)
Definition twoPoints (pA pB : Vec) : State :=
  mkState "1" 1 2 [[pA; pB]] [[(0, 0); (0, 0)]] [[(0, 0); (0, 0)]] [[pA; pB]].

(** The two points of [twoPoints (0, 0) (100, 0)]. *)
Definition stretchedA : Pt := mkPt (0, 0) (0, 0) (0, 0) (0, 0).
Definition stretchedB : Pt := mkPt (0 + 100, 0) (0, 0) (0, 0) (0 + 100, 0).

(** The edges of a 3 x 3 grid, in the order of the loops: the right and
    down neighbours of every point, then the two diagonals of every block
    of 2 x 2 points. *)
Definition structuralEdges3x3 : list Edge :=
  [((0, 0), (0, 1)); ((0, 0), (1, 0)); ((0, 1), (0, 2)); ((0, 1), (1, 1));
   ((0, 2), (1, 2)); ((1, 0), (1, 1)); ((1, 0), (2, 0)); ((1, 1), (1, 2));
   ((1, 1), (2, 1)); ((1, 2), (2, 2)); ((2, 0), (2, 1)); ((2, 1), (2, 2))]%nat.

Definition shearEdges3x3 : list Edge :=
  [((0, 0), (1, 1)); ((1, 0), (0, 1)); ((0, 1), (1, 2)); ((1, 1), (0, 2));
   ((1, 0), (2, 1)); ((2, 0), (1, 1)); ((1, 1), (2, 2)); ((2, 1), (1, 2))]%nat.

(** The variables before the first call of [initializeGrid], with the
    given value of the task control. *)
Definition blank (task : string) : State := mkState task 0 0 [] [] [] [].

(** The free-form task with 3 rows and 4 columns chosen, before the grid
    is built. *)
Definition free_ex : State := mkState "5" 3 4 [] [] [] [].

(** A single point at rest inside the padded rectangle. *)
Definition single_ex : State :=
  mkState "5" 1 1 [[(100, 100)]] [[(0, 0)]] [[(0, 0)]] [[(100, 100)]].

(** A deformed 2 x 2 grid with shear springs. *)
Definition square_ex : State :=
  mkState "3" 2 2
    [[(50, 50); (120, 50)]; [(50, 100); (100, 130)]]
    [[(0, 0); (1, 0)]; [(0, 2); (0, 0)]]
    [[(3, 4); (0, 0)]; [(0, 0); (5, 6)]]
    [[(50, 50); (120, 50)]; [(50, 100); (100, 130)]].

(** What one call of [applySpring] on the points [a] at [A] and [c] at [B]
    adds to the force of the point at [p]. *)
Definition springDelta (a c : Pt) (A B : nat * nat) (L0 k b : R) (p : nat * nat) : Vec :=
  if Req_dec_T (distance (ptPos a) (ptPos c)) 0 then (0, 0)
  else if bool_decide (p = A) then springForceOverMass a c L0 k b
  else if bool_decide (p = B) then vopp (springForceOverMass a c L0 k b)
  else (0, 0).

(** The point that the preset of a task moves after the grid is built, and
    the offset it adds to the position of that point. *)
Definition disturbedPoint (task : string) (cols : nat) : option (nat * nat) :=
  if (task =? "1")%string then Some (0, 1)%nat
  else if (task =? "2")%string then Some (0, 1)%nat
  else if (task =? "3")%string then Some (0, 1)%nat
  else if (task =? "4")%string then Some (1, 1)%nat
  else if (task =? "5")%string then Some (0, cols / 2)%nat
  else None.

Definition disturbance (task : string) : Vec :=
  if (task =? "1")%string then (20, 0)
  else if (task =? "2")%string then (0, -30)
  else if (task =? "3")%string then (0, -30)
  else (0, -40).

(** The dimensions that [initializeGrid] gives to the grid. *)
Definition presetSize (s : State) : nat * nat :=
  if (task s =? "1")%string then (1, 2)%nat
  else if (task s =? "2")%string then (2, 2)%nat
  else if (task s =? "3")%string then (2, 2)%nat
  else if (task s =? "4")%string then (3, 3)%nat
  else (rows s, cols s).

(** The point [(i, j)] of the lattice that [initializeGrid] lays out. *)
Definition lattice (width height : R) (rows cols i j : nat) : Vec :=
  let xStep := if (1 <? cols)%nat then (width - 2 * padding) / (INR cols - 1) else 0 in
  let yStep := if (1 <? rows)%nat then (height - 2 * padding) / (INR rows - 1) else 0 in
  let yStart := height / 2 - (INR rows - 1) * yStep / 2 in
  (padding + INR j * xStep, yStart + INR i * yStep).

(** The calls [spring(i1, j1, i2, j2, L0, k, b)] for the edges of a list,
    one after the other. *)
Definition callAll {S} (spring : nat → nat → nat → nat → R → R → R → M S ())
    (L0 k b : R) (edges : list Edge) : M S () :=
  foldr (λ e rest, spring e.1.1 e.1.2 e.2.1 e.2.2 L0 k b;; rest) (mret ()) edges.

(** The structural edges of a [rows] x [cols] grid, point after point in
    row-major order: the edge to the right neighbour of a point that has
    one, then the edge to its down neighbour if it has one. *)
Definition structuralEdges (rows cols : nat) : list Edge :=
  flat_map (λ i, flat_map (λ j,
    (if (j <? cols - 1)%nat then [((i, j), (i, (j + 1)%nat))] else []) ++
    (if (i <? rows - 1)%nat then [((i, j), ((i + 1)%nat, j))] else []))
    (seq 0 cols)) (seq 0 rows).

(** The diagonals of a [rows] x [cols] grid: for every block of 2 x 2
    points, in row-major order, the diagonal down to the right and then the
    diagonal up to the right. *)
Definition shearEdges (rows cols : nat) : list Edge :=
  flat_map (λ i, flat_map (λ j,
    [((i, j), ((i + 1)%nat, (j + 1)%nat)); (((i + 1)%nat, j), (i, (j + 1)%nat))])
    (seq 0 (cols - 1))) (seq 0 (rows - 1)).

(** The padded rectangle of a drawing area. *)
Definition inBounds (width height : R) (p : Vec) : Prop :=
  padding <= p.1 <= width - padding ∧ padding <= p.2 <= height - padding.

(** ** The monad and its loops *)

Lemma hoare_conseq {S A} (P P' : S → Prop) (Q Q' : A → S → Prop) (m : M S A) :
  hoare P' m Q' → (∀ s, P s → P' s) → (∀ a s, Q' a s → Q a s) → hoare P m Q.
Proof.
  intros Hm HP HQ s Hs. destruct (Hm s (HP s Hs)) as (a & s' & E & Hq).
  exists a, s'. split; [exact E | apply HQ, Hq].
Qed.

Lemma hoare_ret {S A} (P : S → Prop) (a : A) :
  hoare P (mret a) (λ r s, r = a ∧ P s).
Proof. intros s Hs. exists a, s. split; [reflexivity | split; [reflexivity | exact Hs]]. Qed.

Lemma hoare_bind {S A B} (P : S → Prop) (Q : A → S → Prop) (R : B → S → Prop)
    (m : M S A) (k : A → M S B) :
  hoare P m Q → (∀ a, hoare (Q a) (k a) R) → hoare P (m ≫= k) R.
Proof.
  intros Hm Hk s Hs. destruct (Hm s Hs) as (a & s1 & E1 & Hq).
  destruct (Hk a s1 Hq) as (b & s2 & E2 & Hr).
  exists b, s2. split; [| exact Hr].
  unfold mbind, M_bind. rewrite E1. exact E2.
Qed.

Lemma hoare_get {S} (P : S → Prop) :
  hoare P get (λ r s, r = s ∧ P s).
Proof. intros s Hs. exists s, s. split; [reflexivity | split; [reflexivity | exact Hs]]. Qed.

Lemma hoare_when {S} (P Q : S → Prop) (b : bool) (c : M S ()) :
  (b = true → hoare P c (λ _, Q)) → (b = false → ∀ s, P s → Q s) →
  hoare P (when b c) (λ _, Q).
Proof.
  intros Ht Hf. destruct b; simpl.
  - apply Ht. reflexivity.
  - intros s Hs. exists (), s. split; [reflexivity | apply Hf; [reflexivity | exact Hs]].
Qed.

Lemma hoare_forIn {S} (I : nat → S → Prop) (body : nat → M S ()) (n a : nat) :
  (∀ i, a ≤ i < a + n → hoare (I i) (body i) (λ _, I (Datatypes.S i)))%nat →
  hoare (I a) (forIn (seq a n) body) (λ _, I (a + n)%nat).
Proof.
  revert a. induction n as [|n IH]; intros a Hb; simpl.
  - intros s Hs. exists (), s. split; [reflexivity |]. rewrite Nat.add_0_r. exact Hs.
  - eapply hoare_bind.
    + apply Hb. lia.
    + intros u. eapply hoare_conseq.
      * apply (IH (Datatypes.S a)). intros i Hi. apply Hb. lia.
      * auto.
      * intros u' s Hs. replace (a + Datatypes.S n)%nat with (Datatypes.S a + n)%nat by lia. exact Hs.
Qed.

(** The loop rule: an invariant indexed by the loop counter. *)
Lemma hoare_forRange {S} (I : nat → S → Prop) (body : nat → M S ()) (n : nat) :
  (∀ i, (i < n)%nat → hoare (I i) (body i) (λ _, I (Datatypes.S i))) →
  hoare (I 0%nat) (forRange n body) (λ _, I n).
Proof.
  intros Hb. apply (hoare_forIn I body n 0). intros i Hi. apply Hb. lia.
Qed.

(** A loop whose body keeps [P] keeps [P]. *)
Lemma hoare_forRange_const {S} (P : S → Prop) (body : nat → M S ()) (n : nat) :
  (∀ i, (i < n)%nat → hoare P (body i) (λ _, P)) →
  hoare P (forRange n body) (λ _, P).
Proof. intros Hb. apply (hoare_forRange (λ _, P)). exact Hb. Qed.

(** ** Grids *)

Lemma cell_Some (g : Grid) (i j : nat) (v : Vec) :
  cell g i j = Some v ↔ ∃ row, g !! i = Some row ∧ row !! j = Some v.
Proof.
  unfold cell. destruct (g !! i) as [row|]; simpl.
  - split; [eauto | intros (r & [= <-] & H); exact H].
  - split; [discriminate | intros (r & [=] & _)].
Qed.

Lemma cell_setCell_eq (g : Grid) (i j : nat) (v0 v : Vec) :
  cell g i j = Some v0 → cell (setCell g i j v) i j = Some v.
Proof.
  intros (row & Hi & Hj)%cell_Some. unfold setCell, cell. rewrite Hi.
  rewrite list_lookup_insert_eq by (eapply lookup_lt_Some; eauto). simpl.
  apply list_lookup_insert_eq. eapply lookup_lt_Some; eauto.
Qed.

Lemma cell_setCell_ne (g : Grid) (i j i' j' : nat) (v : Vec) :
  (i', j') ≠ (i, j) → cell (setCell g i j v) i' j' = cell g i' j'.
Proof.
  intros Hne. unfold setCell. destruct (g !! i) as [row|] eqn:Hi; [| reflexivity].
  unfold cell. destruct (decide (i = i')) as [<-|Hii].
  - rewrite list_lookup_insert_eq by (eapply lookup_lt_Some; eauto).
    rewrite Hi. simpl. apply list_lookup_insert_ne. congruence.
  - rewrite list_lookup_insert_ne by exact Hii. reflexivity.
Qed.

Lemma shape_setCell (g : Grid) (i j : nat) (v : Vec) :
  map length (setCell g i j v) = map length g.
Proof.
  unfold setCell. destruct (g !! i) as [row|] eqn:Hi; [| reflexivity].
  change (length <$> <[i:=<[j:=v]> row]> g = length <$> g).
  rewrite list_fmap_insert, length_insert. apply list_insert_id.
  rewrite list_lookup_fmap, Hi. reflexivity.
Qed.

Lemma wfGrid_shape (r c : nat) (g g' : Grid) :
  map length g = map length g' → wfGrid r c g = wfGrid r c g'.
Proof.
  intros H. unfold wfGrid. f_equal.
  - rewrite <- (length_map length g), <- (length_map length g'), H. reflexivity.
  - revert g' H. induction g as [|row g IH]; intros [|row' g'] H; simpl in *;
      try discriminate; [reflexivity |].
    injection H as Hl Hg. rewrite Hl, (IH g' Hg). reflexivity.
Qed.

Lemma wfGrid_setCell (r c : nat) (g : Grid) (i j : nat) (v : Vec) :
  wfGrid r c (setCell g i j v) = wfGrid r c g.
Proof. apply wfGrid_shape, shape_setCell. Qed.

Lemma wfGrid_cell (r c : nat) (g : Grid) (i j : nat) :
  wfGrid r c g = true → (i < r)%nat → (j < c)%nat → is_Some (cell g i j).
Proof.
  unfold wfGrid. intros [Hl Hr]%andb_true_iff Hi Hj.
  apply Nat.eqb_eq in Hl. rewrite forallb_forall in Hr.
  destruct (lookup_lt_is_Some_2 g i) as [row Hrow]; [lia |].
  assert (Hlen : length row = c).
  { apply Nat.eqb_eq, Hr, list_elem_of_In, list_elem_of_lookup. eauto. }
  destruct (lookup_lt_is_Some_2 row j) as [v Hv]; [lia |].
  exists v. apply cell_Some. eauto.
Qed.

Lemma vsum_insert (l : list Vec) (i : nat) (old v : Vec) :
  l !! i = Some old → vsum (<[i := v]> l) = vadd (vsum l) (vsub v old).
Proof.
  revert i. induction l as [|a l IH]; intros [|i] H; simpl in *; try discriminate.
  - injection H as ->. unfold vadd, vsub. simpl. f_equal; lra.
  - rewrite (IH i H). unfold vadd, vsub. simpl. f_equal; lra.
Qed.

(** Replacing one point changes the sum over the grid by the difference. *)
Lemma sumGrid_setCell (g : Grid) (i j : nat) (old v : Vec) :
  cell g i j = Some old → sumGrid (setCell g i j v) = vadd (sumGrid g) (vsub v old).
Proof.
  intros (row & Hi & Hj)%cell_Some. unfold setCell, sumGrid. rewrite Hi.
  change (vsum (vsum <$> <[i:=<[j:=v]> row]> g) = vadd (vsum (vsum <$> g)) (vsub v old)).
  rewrite list_fmap_insert.
  rewrite (vsum_insert _ i (vsum row)) by (rewrite list_lookup_fmap, Hi; reflexivity).
  rewrite (vsum_insert row j old v Hj).
  unfold vadd, vsub. simpl. f_equal; lra.
Qed.

(** ** Reading and writing points of the state *)

Lemma grid_setGrid_eq (f : Field) (g : Grid) (s : State) :
  grid f (setGrid f g s) = g.
Proof. destruct f; reflexivity. Qed.

Lemma hdr_setPt (f : Field) (i j : nat) (v : Vec) (s : State) :
  hdr (setPt f i j v s) = hdr s.
Proof. destruct f; reflexivity. Qed.

Lemma wf_setPt (f : Field) (i j : nat) (v : Vec) (s : State) :
  wf (setPt f i j v s) = wf s.
Proof.
  unfold wf, setPt. destruct f; simpl; rewrite wfGrid_setCell; reflexivity.
Qed.

Lemma view_grid (s : State) (i j : nat) (pt : Pt) (f : Field) :
  view s i j = Some pt → cell (grid f s) i j = Some (getF f pt).
Proof.
  unfold view. intros H.
  destruct (cell (positions s) i j) as [p|] eqn:Ep; [| discriminate].
  destruct (cell (velocities s) i j) as [v|] eqn:Ev; [| discriminate].
  destruct (cell (forces s) i j) as [fo|] eqn:Ef; [| discriminate].
  destruct (cell (prevPositions s) i j) as [pp|] eqn:Epp; [| discriminate].
  simpl in H. injection H as <-. destruct f; simpl; assumption.
Qed.

Lemma view_setPt_eq (f : Field) (i j : nat) (v : Vec) (s : State) (pt : Pt) :
  view s i j = Some pt → view (setPt f i j v s) i j = Some (setF f v pt).
Proof.
  intros H.
  pose proof (view_grid s i j pt Positions H) as Hp.
  pose proof (view_grid s i j pt Velocities H) as Hv.
  pose proof (view_grid s i j pt Forces H) as Hf.
  pose proof (view_grid s i j pt PrevPositions H) as Hpp.
  simpl in *. unfold view, setPt.
  destruct f; simpl;
    first [ rewrite (cell_setCell_eq _ i j _ v Hp)
          | rewrite (cell_setCell_eq _ i j _ v Hv)
          | rewrite (cell_setCell_eq _ i j _ v Hf)
          | rewrite (cell_setCell_eq _ i j _ v Hpp) ];
    repeat match goal with E : cell _ _ _ = Some _ |- _ => rewrite E; clear E end;
    reflexivity.
Qed.

Lemma view_setPt_ne (f : Field) (i j i' j' : nat) (v : Vec) (s : State) :
  (i', j') ≠ (i, j) → view (setPt f i j v s) i' j' = view s i' j'.
Proof.
  intros Hne. unfold view, setPt.
  destruct f; simpl; rewrite (cell_setCell_ne _ i j i' j' v Hne); reflexivity.
Qed.

Lemma rdVec_eq (f : Field) (i j : nat) (s : State) (v : Vec) :
  cell (grid f s) i j = Some v → rdVec f i j s = Some (v, s).
Proof. intros H. unfold rdVec, mbind, M_bind, get, liftO. rewrite H. reflexivity. Qed.

Lemma rd_eq (f : Field) (i j : nat) (c : Ix) (s : State) (v : Vec) :
  cell (grid f s) i j = Some v → rd f i j c s = Some (comp c v, s).
Proof.
  intros H. unfold rd. unfold mbind at 1, M_bind at 1.
  rewrite (rdVec_eq f i j s v H). reflexivity.
Qed.

Lemma wr_eq (f : Field) (i j : nat) (c : Ix) (x : R) (s : State) (v : Vec) :
  cell (grid f s) i j = Some v →
  wr f i j c x s = Some ((), setPt f i j (setComp c x v) s).
Proof.
  intros H. pose proof H as (row & Hi & Hj)%cell_Some.
  unfold wr, mbind, M_bind, get, liftO, writeCell, setPt, setCell, modify.
  rewrite Hi. simpl. rewrite Hj. reflexivity.
Qed.

Lemma upd_eq (f : Field) (i j : nat) (c : Ix) (h : R → R) (s : State) (v : Vec) :
  cell (grid f s) i j = Some v →
  upd f i j c h s = Some ((), setPt f i j (setComp c (h (comp c v)) v) s).
Proof.
  intros H. unfold upd. unfold mbind at 1, M_bind at 1.
  rewrite (rd_eq f i j c s v H). apply wr_eq, H.
Qed.

Lemma local_refl (i j : nat) (s : State) (pt : Pt) :
  view s i j = Some pt → local i j s pt s.
Proof. intros H. repeat split; auto. Qed.

Lemma hoare_rd (f : Field) (i j : nat) (c : Ix) (s0 : State) (pt : Pt) :
  hoare (local i j s0 pt) (rd f i j c)
        (λ r s, r = comp c (getF f pt) ∧ local i j s0 pt s).
Proof.
  intros s Hs. exists (comp c (getF f pt)), s. split; [| auto].
  apply rd_eq, view_grid. apply Hs.
Qed.

Lemma hoare_wr (f : Field) (i j : nat) (c : Ix) (x : R) (s0 : State) (pt : Pt) :
  hoare (local i j s0 pt) (wr f i j c x)
        (λ _, local i j s0 (setF f (setComp c x (getF f pt)) pt)).
Proof.
  intros s (Hh & Hw & Hv & Ho).
  exists (), (setPt f i j (setComp c x (getF f pt)) s). split.
  - apply wr_eq, view_grid, Hv.
  - split; [rewrite hdr_setPt; exact Hh |].
    split; [rewrite wf_setPt; exact Hw |].
    split; [apply view_setPt_eq, Hv |].
    intros i' j' Hne. rewrite view_setPt_ne by exact Hne. apply Ho, Hne.
Qed.

Lemma hoare_upd (f : Field) (i j : nat) (c : Ix) (h : R → R) (s0 : State) (pt : Pt) :
  hoare (local i j s0 pt) (upd f i j c h)
        (λ _, local i j s0 (setF f (setComp c (h (comp c (getF f pt))) (getF f pt)) pt)).
Proof.
  unfold upd. eapply hoare_bind; [apply hoare_rd |].
  intros r. intros s [-> Hs]. apply (hoare_wr f i j c _ s0 pt s Hs).
Qed.

(** The same rules, for a read or a write followed by the rest of a
    loop body. *)
Lemma hoare_rd_then {B} (f : Field) (i j : nat) (c : Ix) (s0 : State) (pt : Pt)
    (k : R → M State B) (Q : B → State → Prop) :
  hoare (local i j s0 pt) (k (comp c (getF f pt))) Q →
  hoare (local i j s0 pt) (rd f i j c ≫= k) Q.
Proof.
  intros Hk. eapply hoare_bind; [apply hoare_rd |].
  intros r s [-> Hs]. apply Hk, Hs.
Qed.

Lemma hoare_wr_then {B} (f : Field) (i j : nat) (c : Ix) (x : R) (s0 : State) (pt : Pt)
    (k : () → M State B) (Q : B → State → Prop) :
  hoare (local i j s0 (setF f (setComp c x (getF f pt)) pt)) (k ()) Q →
  hoare (local i j s0 pt) (wr f i j c x ≫= k) Q.
Proof.
  intros Hk. eapply hoare_bind; [apply hoare_wr |].
  intros [] s Hs. apply Hk, Hs.
Qed.

Lemma hoare_upd_then {B} (f : Field) (i j : nat) (c : Ix) (h : R → R) (s0 : State)
    (pt : Pt) (k : () → M State B) (Q : B → State → Prop) :
  hoare (local i j s0 (setF f (setComp c (h (comp c (getF f pt))) (getF f pt)) pt)) (k ()) Q →
  hoare (local i j s0 pt) (upd f i j c h ≫= k) Q.
Proof.
  intros Hk. eapply hoare_bind; [apply hoare_upd |].
  intros [] s Hs. apply Hk, Hs.
Qed.

Lemma hoare_wr_end (f : Field) (i j : nat) (c : Ix) (x : R) (s0 : State) (pt pt' : Pt) :
  setF f (setComp c x (getF f pt)) pt = pt' →
  hoare (local i j s0 pt) (wr f i j c x) (λ _, local i j s0 pt').
Proof. intros <-. apply hoare_wr. Qed.

Lemma hoare_upd_end (f : Field) (i j : nat) (c : Ix) (h : R → R) (s0 : State)
    (pt pt' : Pt) :
  setF f (setComp c (h (comp c (getF f pt))) (getF f pt)) pt = pt' →
  hoare (local i j s0 pt) (upd f i j c h) (λ _, local i j s0 pt').
Proof. intros <-. apply hoare_upd. Qed.

(** ** Loops that treat each point on its own *)

Lemma visited_here (m i j : nat) : visited m i j i j = false.
Proof.
  unfold visited. rewrite Nat.ltb_irrefl, Nat.eqb_refl, Nat.ltb_irrefl. reflexivity.
Qed.

Lemma visited_step_here (m i j : nat) :
  (j < m)%nat → visited m i (Datatypes.S j) i j = true.
Proof.
  intros H. unfold visited. rewrite Nat.eqb_refl.
  rewrite (proj2 (Nat.ltb_lt j (Datatypes.S j))) by lia.
  rewrite (proj2 (Nat.ltb_lt j m)) by lia.
  rewrite orb_true_r. reflexivity.
Qed.

Lemma visited_step_other (m i j i' j' : nat) :
  (i', j') ≠ (i, j) → visited m i (Datatypes.S j) i' j' = visited m i j i' j'.
Proof.
  intros Hne. unfold visited. f_equal. f_equal.
  destruct (Nat.eqb_spec i' i) as [->|]; [| reflexivity]. simpl.
  assert (j' ≠ j) by congruence.
  destruct (Nat.ltb_spec j' (Datatypes.S j)), (Nat.ltb_spec j' j); try reflexivity; lia.
Qed.

Lemma visited_row_end (m i i' j' : nat) :
  visited m i m i' j' = visited m (Datatypes.S i) 0 i' j'.
Proof.
  unfold visited.
  destruct (Nat.ltb_spec i' i), (Nat.eqb_spec i' i), (Nat.ltb_spec j' m),
    (Nat.ltb_spec i' (Datatypes.S i)), (Nat.eqb_spec i' (Datatypes.S i)),
    (Nat.ltb_spec j' 0); try reflexivity; lia.
Qed.

Lemma visited_end (n m i j : nat) :
  visited m n 0 i j = (i <? n) && (j <? m).
Proof.
  unfold visited. rewrite andb_false_r, orb_false_r. reflexivity.
Qed.

Section Pointwise.

Variables (n m : nat) (body : nat → nat → M State ()) (G : nat → nat → Pt → Pt).

Hypothesis body_local : ∀ i j s0 pt, (i < n)%nat → (j < m)%nat →
  hoare (local i j s0 pt) (body i j) (λ _, local i j s0 (G i j pt)).

Variable s0 : State.

Hypothesis points : ∀ i j, (i < n)%nat → (j < m)%nat → is_Some (view s0 i j).

Lemma pointwise_step (i j : nat) :
  (i < n)%nat → (j < m)%nat →
  hoare (swept m G s0 i j) (body i j) (λ _, swept m G s0 i (Datatypes.S j)).
Proof.
  intros Hi Hj s (Hh & Hw & Hv).
  destruct (points i j Hi Hj) as [pt Hpt].
  assert (Hs : view s i j = Some pt).
  { rewrite Hv, visited_here. exact Hpt. }
  destruct (body_local i j s pt Hi Hj s (local_refl i j s pt Hs))
    as (u & s' & E & Hh' & Hw' & Hv' & Ho').
  exists u, s'. split; [exact E |].
  split; [congruence |]. split; [congruence |].
  intros i' j'. destruct (decide ((i', j') = (i, j))) as [[= -> ->]|Hne].
  - rewrite Hv', visited_step_here, Hpt by exact Hj. reflexivity.
  - rewrite (Ho' i' j' Hne), Hv, visited_step_other by exact Hne. reflexivity.
Qed.

Lemma pointwise_row (i : nat) :
  (i < n)%nat →
  hoare (swept m G s0 i 0) (forRange m (body i)) (λ _, swept m G s0 (Datatypes.S i) 0).
Proof.
  intros Hi. eapply hoare_conseq.
  - apply (hoare_forRange (swept m G s0 i)). intros j Hj. apply pointwise_step; assumption.
  - auto.
  - intros _ s (Hh & Hw & Hv). split; [exact Hh |]. split; [exact Hw |].
    intros i' j'. rewrite Hv, visited_row_end. reflexivity.
Qed.

(** The two nested loops transform every point of the grid by [G]. *)
Lemma pointwise_loops :
  hoare (λ s, s = s0) (forRange n (λ i, forRange m (body i)))
        (λ _ s, hdr s = hdr s0 ∧ wf s = wf s0 ∧
                ∀ i j, view s i j =
                       if (i <? n) && (j <? m) then G i j <$> view s0 i j else view s0 i j).
Proof.
  eapply hoare_conseq.
  - apply (hoare_forRange (λ i, swept m G s0 i 0)). intros i Hi. apply pointwise_row, Hi.
  - intros s ->. split; [reflexivity |]. split; [reflexivity |]. intros i j.
    unfold visited. simpl. rewrite andb_false_r. reflexivity.
  - intros _ s (Hh & Hw & Hv). split; [exact Hh |]. split; [exact Hw |].
    intros i j. rewrite Hv, visited_end. reflexivity.
Qed.

End Pointwise.

(** ** applySpring *)

Lemma bind_eq {S A B} (m : M S A) (k : A → M S B) (s s' : S) (a : A) :
  m s = Some (a, s') → (m ≫= k) s = k a s'.
Proof. intros E. unfold mbind, M_bind. rewrite E. reflexivity. Qed.

Lemma setCell_setCell (g : Grid) (i j : nat) (v v' : Vec) :
  setCell (setCell g i j v') i j v = setCell g i j v.
Proof.
  unfold setCell. destruct (g !! i) as [row|] eqn:Hi; [| rewrite Hi; reflexivity].
  rewrite list_lookup_insert_eq by (eapply lookup_lt_Some; eauto).
  rewrite !list_insert_insert_eq. reflexivity.
Qed.

Lemma setPt_setPt (f : Field) (i j : nat) (v v' : Vec) (s : State) :
  setPt f i j v (setPt f i j v' s) = setPt f i j v s.
Proof.
  unfold setPt. rewrite grid_setGrid_eq, setCell_setCell. destruct f; reflexivity.
Qed.

Lemma sqrt_sq_zero (x y : R) : sqrt (x * x + y * y) = 0 ↔ x = 0 ∧ y = 0.
Proof.
  split.
  - intros H. apply sqrt_eq_0 in H; [| nra]. split; nra.
  - intros [-> ->]. replace (0 * 0 + 0 * 0) with 0 by ring. apply sqrt_0.
Qed.

Lemma distance_same (p : Vec) : distance p p = 0.
Proof. unfold distance. apply sqrt_sq_zero. split; ring. Qed.

(** On coincident end points the call returns before any write. *)
Lemma applySpring_coincident (s : State) (i1 j1 i2 j2 : nat) (L0 k b : R) (pA pB vA vB : Vec) :
  cell (positions s) i1 j1 = Some pA → cell (positions s) i2 j2 = Some pB →
  cell (velocities s) i1 j1 = Some vA → cell (velocities s) i2 j2 = Some vB →
  distance pA pB = 0 →
  applySpring i1 j1 i2 j2 L0 k b s = Some ((), s).
Proof.
  intros HpA HpB HvA HvB Hd. unfold applySpring.
  rewrite (bind_eq _ _ s s pA) by (apply rdVec_eq; exact HpA).
  rewrite (bind_eq _ _ s s pB) by (apply rdVec_eq; exact HpB).
  rewrite (bind_eq _ _ s s vA) by (apply rdVec_eq; exact HvA).
  rewrite (bind_eq _ _ s s vB) by (apply rdVec_eq; exact HvB).
  cbv zeta. fold (distance pA pB).
  destruct (Req_dec_T (distance pA pB) 0) as [_|Hne]; [reflexivity | contradiction].
Qed.

(** At nonzero distance the call adds [F/mass] along [u] to the force of
    the first point and subtracts it from the force of the second. *)
Lemma applySpring_apart (s : State) (i1 j1 i2 j2 : nat) (L0 k b : R)
    (pA pB vA vB fA fB : Vec) :
  cell (positions s) i1 j1 = Some pA → cell (positions s) i2 j2 = Some pB →
  cell (velocities s) i1 j1 = Some vA → cell (velocities s) i2 j2 = Some vB →
  cell (forces s) i1 j1 = Some fA → cell (forces s) i2 j2 = Some fB →
  distance pA pB ≠ 0 →
  (i2, j2) ≠ (i1, j1) ∧
  applySpring i1 j1 i2 j2 L0 k b s =
    Some ((), setPt Forces i2 j2 (vsub fB (forceOverMass pA pB vA vB L0 k b))
                (setPt Forces i1 j1 (vadd fA (forceOverMass pA pB vA vB L0 k b)) s)).
Proof.
  intros HpA HpB HvA HvB HfA HfB Hd.
  assert (Hne : (i2, j2) ≠ (i1, j1)).
  { intros [= -> ->]. apply Hd. rewrite HpA in HpB. injection HpB as <-.
    apply distance_same. }
  split; [exact Hne |]. unfold applySpring.
  rewrite (bind_eq _ _ s s pA) by (apply rdVec_eq; exact HpA).
  rewrite (bind_eq _ _ s s pB) by (apply rdVec_eq; exact HpB).
  rewrite (bind_eq _ _ s s vA) by (apply rdVec_eq; exact HvA).
  rewrite (bind_eq _ _ s s vB) by (apply rdVec_eq; exact HvB).
  cbv zeta. fold (distance pA pB).
  destruct (Req_dec_T (distance pA pB) 0) as [E|_]; [contradiction |].
  erewrite bind_eq by (apply upd_eq; exact HfA).
  erewrite bind_eq by (apply upd_eq; simpl; eapply cell_setCell_eq; exact HfA).
  rewrite setPt_setPt.
  erewrite bind_eq
    by (apply upd_eq; simpl; rewrite cell_setCell_ne by exact Hne; exact HfB).
  erewrite upd_eq
    by (simpl; eapply cell_setCell_eq; rewrite cell_setCell_ne by exact Hne; exact HfB).
  rewrite setPt_setPt. do 2 f_equal.
  f_equal; [| f_equal];
    unfold vadd, vsub, forceOverMass, vscale, totalForce, unitDir; simpl;
    f_equal; unfold Rdiv; ring.
Qed.

(** ** calculateForces *)

Lemma hoare_conj {S A} (P : S → Prop) (m : M S A) (Q1 Q2 : A → S → Prop) :
  hoare P m Q1 → hoare P m Q2 → hoare P m (λ a s, Q1 a s ∧ Q2 a s).
Proof.
  intros H1 H2 s Hs. destruct (H1 s Hs) as (a & s1 & E1 & Hq1).
  destruct (H2 s Hs) as (a' & s2 & E2 & Hq2).
  rewrite E1 in E2. injection E2 as <- <-. eauto.
Qed.

Lemma sameButForces_refl (s : State) : sameButForces s s.
Proof. repeat split. Qed.

Lemma sameButForces_setPt (s0 s : State) (i j : nat) (v : Vec) :
  sameButForces s0 s → sameButForces s0 (setPt Forces i j v s).
Proof.
  intros (Hh & Hp & Hv & Hpp & Hl). repeat split; simpl; try assumption.
  rewrite shape_setCell. exact Hl.
Qed.

Lemma sameButForces_wf (s0 s : State) : sameButForces s0 s → wf s = wf s0.
Proof.
  intros (Hh & Hp & Hv & Hpp & Hl). unfold wf. injection Hh as _ Hr Hc.
  rewrite Hr, Hc, Hp, Hv, Hpp. do 2 f_equal. apply wfGrid_shape, Hl.
Qed.

Lemma wf_cell (s : State) (f : Field) (i j : nat) :
  wf s = true → (i < rows s)%nat → (j < cols s)%nat → is_Some (cell (grid f s) i j).
Proof.
  unfold wf. intros [[[Hp Hv]%andb_true_iff Hf]%andb_true_iff Hpp]%andb_true_iff Hi Hj.
  destruct f; simpl; eapply wfGrid_cell; eauto.
Qed.

Lemma wf_view (s : State) (i j : nat) :
  wf s = true → (i < rows s)%nat → (j < cols s)%nat → is_Some (view s i j).
Proof.
  intros Hw Hi Hj.
  destruct (wf_cell s Positions i j Hw Hi Hj) as [p Hp].
  destruct (wf_cell s Velocities i j Hw Hi Hj) as [v Hv].
  destruct (wf_cell s Forces i j Hw Hi Hj) as [f Hf].
  destruct (wf_cell s PrevPositions i j Hw Hi Hj) as [pp Hpp].
  simpl in *. unfold view. rewrite Hp, Hv, Hf, Hpp. simpl. eauto.
Qed.

Lemma vsum_zero (l : list Vec) : Forall (λ v, v = (0, 0)) l → vsum l = (0, 0).
Proof.
  induction 1 as [|v l -> _ IH]; simpl; [reflexivity |].
  rewrite IH. unfold vadd. simpl. f_equal; lra.
Qed.

Lemma sumGrid_zero (r c : nat) (g : Grid) :
  wfGrid r c g = true →
  (∀ i j, (i < r)%nat → (j < c)%nat → cell g i j = Some (0, 0)) →
  sumGrid g = (0, 0).
Proof.
  unfold wfGrid. intros [Hl Hr]%andb_true_iff Hz.
  apply Nat.eqb_eq in Hl. rewrite forallb_forall in Hr.
  unfold sumGrid. apply vsum_zero. apply Forall_lookup. intros i x Hx.
  change ((vsum <$> g) !! i = Some x) in Hx. rewrite list_lookup_fmap in Hx.
  destruct (g !! i) as [row|] eqn:Hrow; [| discriminate]. injection Hx as <-.
  assert (Hlen : length row = c).
  { apply Nat.eqb_eq, Hr, list_elem_of_In, list_elem_of_lookup. eauto. }
  apply vsum_zero, Forall_lookup. intros j v Hv.
  assert (Hc : cell g i j = Some (0, 0)).
  { apply Hz; [apply lookup_lt_Some in Hrow; lia | apply lookup_lt_Some in Hv; lia]. }
  apply cell_Some in Hc as (row' & Hrow' & Hv'). congruence.
Qed.

(** [applySpring] on two points of the grid keeps the forces balanced. *)
Lemma applySpring_balanced (s0 : State) (i1 j1 i2 j2 : nat) (L0 k b : R) :
  wf s0 = true →
  (i1 < rows s0)%nat → (j1 < cols s0)%nat → (i2 < rows s0)%nat → (j2 < cols s0)%nat →
  hoare (balanced s0) (applySpring i1 j1 i2 j2 L0 k b) (λ _, balanced s0).
Proof.
  intros Hw0 Hi1 Hj1 Hi2 Hj2 s [Hsame Hsum].
  assert (Hw : wf s = true) by (rewrite (sameButForces_wf s0 s Hsame); exact Hw0).
  pose proof Hsame as (Hh & _). injection Hh as _ Hr Hc. rewrite <- Hr in Hi1, Hi2.
  rewrite <- Hc in Hj1, Hj2.
  destruct (wf_cell s Positions i1 j1 Hw Hi1 Hj1) as [pA HpA].
  destruct (wf_cell s Positions i2 j2 Hw Hi2 Hj2) as [pB HpB].
  destruct (wf_cell s Velocities i1 j1 Hw Hi1 Hj1) as [vA HvA].
  destruct (wf_cell s Velocities i2 j2 Hw Hi2 Hj2) as [vB HvB].
  destruct (wf_cell s Forces i1 j1 Hw Hi1 Hj1) as [fA HfA].
  destruct (wf_cell s Forces i2 j2 Hw Hi2 Hj2) as [fB HfB].
  simpl in *. destruct (Req_dec_T (distance pA pB) 0) as [Hd|Hd].
  - exists (), s. split; [| split; assumption].
    eapply applySpring_coincident; eauto.
  - destruct (applySpring_apart s i1 j1 i2 j2 L0 k b pA pB vA vB fA fB) as [Hne E]; auto.
    eexists (), _. split; [exact E |]. split.
    + apply sameButForces_setPt, sameButForces_setPt, Hsame.
    + simpl.
      rewrite (sumGrid_setCell _ i2 j2 fB)
        by (rewrite cell_setCell_ne by exact Hne; exact HfB).
      rewrite (sumGrid_setCell _ i1 j1 fA) by exact HfA.
      rewrite Hsum. unfold vadd, vsub. simpl. f_equal; lra.
Qed.

Lemma springPass_balanced (s0 : State) (t : string) :
  wf s0 = true →
  hoare (balanced s0) (springPass applySpring (rows s0) (cols s0) t) (λ _, balanced s0).
Proof.
  intros Hw0. unfold springPass. eapply hoare_bind.
  - apply hoare_forRange_const. intros i Hi.
    apply hoare_forRange_const. intros j Hj.
    eapply hoare_bind.
    + apply (hoare_when (balanced s0) (balanced s0)); [| auto]. intros Hg%Nat.ltb_lt.
      apply applySpring_balanced; auto; lia.
    + intros ?. apply (hoare_when (balanced s0) (balanced s0)); [| auto]. intros Hg%Nat.ltb_lt.
      apply applySpring_balanced; auto; lia.
  - intros ?. apply (hoare_when (balanced s0) (balanced s0)); [| auto]. intros _.
    apply hoare_forRange_const. intros i Hi.
    apply hoare_forRange_const. intros j Hj.
    eapply hoare_bind.
    + apply applySpring_balanced; auto; lia.
    + intros ?. apply applySpring_balanced; auto; lia.
Qed.

Lemma zeroBody_local (i j : nat) (s0 : State) (pt : Pt) :
  hoare (local i j s0 pt) (wr Forces i j I0 0;; wr Forces i j I1 0)
        (λ _, local i j s0 (setF Forces (0, 0) pt)).
Proof.
  apply hoare_wr_then. apply hoare_wr_end. reflexivity.
Qed.

Lemma zeroBody_same (s0 : State) (i j : nat) :
  wf s0 = true → (i < rows s0)%nat → (j < cols s0)%nat →
  hoare (sameButForces s0) (wr Forces i j I0 0;; wr Forces i j I1 0)
        (λ _, sameButForces s0).
Proof.
  intros Hw0 Hi Hj s Hsame.
  assert (Hw : wf s = true) by (rewrite (sameButForces_wf s0 s Hsame); exact Hw0).
  pose proof Hsame as (Hh & _). injection Hh as _ Hr Hc.
  destruct (wf_cell s Forces i j Hw) as [f Hf]; [lia | lia |].
  eexists (), _. split.
  - erewrite bind_eq by (apply wr_eq; exact Hf).
    apply wr_eq. simpl. eapply cell_setCell_eq. exact Hf.
  - apply sameButForces_setPt, sameButForces_setPt, Hsame.
Qed.

Lemma zeroForces_balanced (s0 : State) :
  wf s0 = true →
  hoare (λ s, s = s0) (zeroForces (rows s0) (cols s0)) (λ _, balanced s0).
Proof.
  intros Hw0.
  assert (H1 : hoare (λ s, s = s0) (zeroForces (rows s0) (cols s0))
                 (λ _, sameButForces s0)).
  { apply hoare_conseq with (P' := sameButForces s0) (Q' := λ _, sameButForces s0).
    - apply hoare_forRange_const. intros i Hi.
      apply hoare_forRange_const. intros j Hj. apply zeroBody_same; assumption.
    - intros s ->. apply sameButForces_refl.
    - intros a s H. exact H. }
  assert (H2 := pointwise_loops (rows s0) (cols s0)
                  (λ i j, wr Forces i j I0 0;; wr Forces i j I1 0)
                  (λ _ _, setF Forces (0, 0))
                  (λ i j s1 pt _ _, zeroBody_local i j s1 pt) s0
                  (λ i j Hi Hj, wf_view s0 i j Hw0 Hi Hj)).
  intros s Hs.
  destruct (hoare_conj _ _ _ _ H1 H2 s Hs) as (u & s' & E & Hsame & Hh & Hw & Hv).
  exists u, s'. split; [exact E |]. split; [exact Hsame |].
  rewrite Hw0 in Hw. unfold wf in Hw.
  apply andb_true_iff in Hw as [[[_ _]%andb_true_iff Hf]%andb_true_iff _].
  apply (sumGrid_zero _ _ _ Hf). intros i j Hi Hj.
  injection Hh as _ Hr Hc. rewrite Hr in Hi. rewrite Hc in Hj.
  specialize (Hv i j).
  rewrite (proj2 (Nat.ltb_lt _ _) Hi), (proj2 (Nat.ltb_lt _ _) Hj) in Hv. simpl in Hv.
  destruct (wf_view s0 i j Hw0 Hi Hj) as [pt Hpt]. rewrite Hpt in Hv.
  apply (view_grid s' i j _ Forces Hv).
Qed.

(** One pass of [calculateForces] on a well-formed state succeeds, changes
    the forces only, and leaves them summing to zero. *)
Lemma calculateForces_balanced (s0 : State) :
  wf s0 = true → hoare (λ s, s = s0) calculateForces (λ _, balanced s0).
Proof.
  intros Hw0. unfold calculateForces. eapply hoare_bind; [apply hoare_get |].
  intros r s [-> ->].
  assert (H : hoare (λ s, s = s0)
                (zeroForces (rows s0) (cols s0);;
                 springPass applySpring (rows s0) (cols s0) (task s0))
                (λ _, balanced s0)).
  { eapply hoare_bind; [apply zeroForces_balanced, Hw0 |].
    intros u. apply springPass_balanced, Hw0. }
  exact (H s0 eq_refl).
Qed.

Lemma calculateForces_unfold (s : State) :
  calculateForces s =
  (zeroForces (rows s) (cols s);; springPass applySpring (rows s) (cols s) (task s)) s.
Proof. reflexivity. Qed.

(** ** The integrators *)

Lemma sameButForces_view (s0 s : State) (i j : nat) (pt : Pt) :
  sameButForces s0 s → wf s0 = true → (i < rows s0)%nat → (j < cols s0)%nat →
  view s0 i j = Some pt →
  ∃ a, cell (forces s) i j = Some a ∧ view s i j = Some (setF Forces a pt).
Proof.
  intros Hsame Hw0 Hi Hj Hv.
  assert (Hw : wf s = true) by (rewrite (sameButForces_wf s0 s Hsame); exact Hw0).
  destruct Hsame as (Hh & Hp & Hvel & Hpp & _). injection Hh as _ Hr Hc.
  destruct (wf_cell s Forces i j Hw) as [a Ha]; [lia | lia |]. simpl in Ha.
  exists a. split; [exact Ha |].
  pose proof (view_grid s0 i j pt Positions Hv) as E1.
  pose proof (view_grid s0 i j pt Velocities Hv) as E2.
  pose proof (view_grid s0 i j pt PrevPositions Hv) as E3.
  simpl in *. unfold view. rewrite Hp, Hvel, Hpp, E1, E2, E3, Ha.
  destruct pt; reflexivity.
Qed.

Lemma eulerBody_local (i j : nat) (s0 : State) (pt : Pt) :
  hoare (local i j s0 pt) (eulerBody i j) (λ _, local i j s0 (eulerPt pt)).
Proof.
  unfold eulerBody.
  apply hoare_rd_then, hoare_upd_then, hoare_rd_then, hoare_upd_then.
  apply hoare_rd_then, hoare_upd_then, hoare_rd_then, hoare_upd_end.
  destruct pt as [[x y] [vx vy] [ax ay] [px py]]. unfold eulerPt, vadd, vscale. simpl.
  f_equal; f_equal; ring.
Qed.

Section Steps.

Variables width height : R.

Lemma verletBody_local (i j : nat) (s0 : State) (pt : Pt) :
  hoare (local i j s0 pt) (verletBody width height i j)
        (λ _, local i j s0 (verletPt width height pt)).
Proof.
  unfold verletBody. cbv zeta.
  do 6 apply hoare_rd_then. do 6 apply hoare_wr_then.
  apply hoare_rd_then, hoare_wr_then, hoare_rd_then, hoare_wr_end.
  destruct pt as [[x y] [vx vy] [ax ay] [px py]]. reflexivity.
Qed.

(** The run of one Euler step: the pass of [calculateForces] ends in [sf],
    and the loop then moves every point of the grid by [eulerPt]. *)
Lemma updatePositions_run (s0 : State) :
  wf s0 = true →
  ∃ sf s', calculateForces s0 = Some ((), sf) ∧ balanced s0 sf ∧
    updatePositions s0 = Some ((), s') ∧ hdr s' = hdr s0 ∧ wf s' = true ∧
    ∀ i j, (i < rows s0)%nat → (j < cols s0)%nat →
           view s' i j = eulerPt <$> view sf i j.
Proof.
  intros Hw0.
  destruct (calculateForces_balanced s0 Hw0 s0 eq_refl) as ([] & sf & E & Hb).
  pose proof Hb as [Hsame _].
  assert (Hw : wf sf = true) by (rewrite (sameButForces_wf s0 sf Hsame); exact Hw0).
  pose proof Hsame as (Hh & _). pose proof Hh as Hh2. injection Hh2 as _ Hr Hc.
  destruct (pointwise_loops (rows sf) (cols sf) eulerBody (λ _ _, eulerPt)
              (λ i j s1 pt _ _, eulerBody_local i j s1 pt) sf
              (λ i j Hi Hj, wf_view sf i j Hw Hi Hj) sf eq_refl)
    as ([] & s' & E' & Hh' & Hw' & Hv').
  exists sf, s'. split; [exact E |]. split; [exact Hb |]. split.
  - unfold updatePositions. rewrite (bind_eq _ _ s0 sf ()) by exact E.
    rewrite (bind_eq get _ sf sf sf) by reflexivity. exact E'.
  - split; [rewrite Hh'; exact Hh |]. split; [congruence |].
    intros i j Hi Hj. rewrite Hv'. rewrite <- Hr in Hi. rewrite <- Hc in Hj.
    rewrite (proj2 (Nat.ltb_lt _ _) Hi), (proj2 (Nat.ltb_lt _ _) Hj). reflexivity.
Qed.

(** The run of one Verlet step. *)
Lemma updatePosVerlet_run (s0 : State) :
  wf s0 = true →
  ∃ sf s', calculateForces s0 = Some ((), sf) ∧ balanced s0 sf ∧
    updatePosVerlet width height s0 = Some ((), s') ∧ hdr s' = hdr s0 ∧ wf s' = true ∧
    ∀ i j, (i < rows s0)%nat → (j < cols s0)%nat →
           view s' i j = verletPt width height <$> view sf i j.
Proof.
  intros Hw0.
  destruct (calculateForces_balanced s0 Hw0 s0 eq_refl) as ([] & sf & E & Hb).
  pose proof Hb as [Hsame _].
  assert (Hw : wf sf = true) by (rewrite (sameButForces_wf s0 sf Hsame); exact Hw0).
  pose proof Hsame as (Hh & _). pose proof Hh as Hh2. injection Hh2 as _ Hr Hc.
  destruct (pointwise_loops (rows sf) (cols sf) (verletBody width height)
              (λ _ _, verletPt width height)
              (λ i j s1 pt _ _, verletBody_local i j s1 pt) sf
              (λ i j Hi Hj, wf_view sf i j Hw Hi Hj) sf eq_refl)
    as ([] & s' & E' & Hh' & Hw' & Hv').
  exists sf, s'. split; [exact E |]. split; [exact Hb |]. split.
  - unfold updatePosVerlet. rewrite (bind_eq _ _ s0 sf ()) by exact E.
    rewrite (bind_eq get _ sf sf sf) by reflexivity. exact E'.
  - split; [rewrite Hh'; exact Hh |]. split; [congruence |].
    intros i j Hi Hj. rewrite Hv'. rewrite <- Hr in Hi. rewrite <- Hc in Hj.
    rewrite (proj2 (Nat.ltb_lt _ _) Hi), (proj2 (Nat.ltb_lt _ _) Hj). reflexivity.
Qed.

End Steps.

(** ** Properties of applySpring *)

Lemma exec_eq {S A} (m : M S A) (s s' : S) (a : A) :
  m s = Some (a, s') → exec m s = Some s'.
Proof. intros E. unfold exec. rewrite E. reflexivity. Qed.

(** The state after a call at nonzero distance, in terms of the two
    points. *)
Lemma applySpring_points (s : State) (i1 j1 i2 j2 : nat) (L0 k b : R) (a c : Pt) :
  view s i1 j1 = Some a → view s i2 j2 = Some c →
  distance (ptPos a) (ptPos c) ≠ 0 →
  ∃ s', applySpring i1 j1 i2 j2 L0 k b s = Some ((), s') ∧
    cell (forces s') i1 j1 = Some (vadd (ptForce a) (springForceOverMass a c L0 k b)) ∧
    cell (forces s') i2 j2 = Some (vsub (ptForce c) (springForceOverMass a c L0 k b)).
Proof.
  intros Ha Hc Hd.
  pose proof (view_grid s i1 j1 a Positions Ha) as HpA.
  pose proof (view_grid s i2 j2 c Positions Hc) as HpB.
  pose proof (view_grid s i1 j1 a Velocities Ha) as HvA.
  pose proof (view_grid s i2 j2 c Velocities Hc) as HvB.
  pose proof (view_grid s i1 j1 a Forces Ha) as HfA.
  pose proof (view_grid s i2 j2 c Forces Hc) as HfB.
  simpl in *.
  destruct (applySpring_apart s i1 j1 i2 j2 L0 k b _ _ _ _ _ _ HpA HpB HvA HvB HfA HfB Hd)
    as [Hne E].
  eexists. split; [exact E |]. simpl. split.
  - rewrite cell_setCell_ne by congruence. eapply cell_setCell_eq. exact HfA.
  - eapply cell_setCell_eq. rewrite cell_setCell_ne by exact Hne. exact HfB.
Qed.

Lemma distance_horizontal (x y d : R) : 0 <= d → distance (x, y) (x + d, y) = d.
Proof.
  intros Hd. unfold distance. simpl.
  replace ((x + d - x) * (x + d - x) + (y - y) * (y - y)) with (d * d) by ring.
  apply sqrt_square, Hd.
Qed.

(** C1 (as amended: the signs of the specification are exchanged).  At
    nonzero distance, with [F] the total spring-plus-damping force along the
    unit vector [u] from pointA to pointB, [applySpring] increases the
    accumulated force of pointA by [F/mass] along [u] and decreases the
    accumulated force of pointB by the same vector. *)
Theorem applySpring_pulls_first_towards_second
    (s : State) (i1 j1 i2 j2 : nat) (L0 k b : R) (a c : Pt) :
  view s i1 j1 = Some a → view s i2 j2 = Some c →
  distance (ptPos a) (ptPos c) ≠ 0 →
  ∃ s', exec (applySpring i1 j1 i2 j2 L0 k b) s = Some s' ∧
    cell (forces s') i1 j1 = Some (vadd (ptForce a) (springForceOverMass a c L0 k b)) ∧
    cell (forces s') i2 j2 = Some (vsub (ptForce c) (springForceOverMass a c L0 k b)).
Proof.
  intros Ha Hc Hd.
  destruct (applySpring_points s i1 j1 i2 j2 L0 k b a c Ha Hc Hd) as (s' & E & HA & HB).
  exists s'. split; [apply (exec_eq _ _ _ _ E) | split; assumption].
Qed.

Lemma applySpring_pulls_first_towards_second_witness :
  ∃ s', exec (applySpring 0 0 0 1 50 20 (1 / 10)) (twoPoints (0, 0) (0 + 100, 0)) = Some s' ∧
    cell (forces s') 0 0 =
      Some (vadd (0, 0)
              (springForceOverMass (mkPt (0, 0) (0, 0) (0, 0) (0, 0))
                 (mkPt (0 + 100, 0) (0, 0) (0, 0) (0 + 100, 0)) 50 20 (1 / 10))) ∧
    cell (forces s') 0 1 =
      Some (vsub (0, 0)
              (springForceOverMass (mkPt (0, 0) (0, 0) (0, 0) (0, 0))
                 (mkPt (0 + 100, 0) (0, 0) (0, 0) (0 + 100, 0)) 50 20 (1 / 10))).
Proof.
  apply (applySpring_pulls_first_towards_second
           (twoPoints (0, 0) (0 + 100, 0)) 0 0 0 1 50 20 (1 / 10)
           (mkPt (0, 0) (0, 0) (0, 0) (0, 0))
           (mkPt (0 + 100, 0) (0, 0) (0, 0) (0 + 100, 0))).
  - reflexivity.
  - reflexivity.
  - simpl. rewrite distance_horizontal; lra.
Defined.

(** C1 as stated fails.  For two points at rest, 100 apart on a horizontal
    line, and the structural spring (rest length 50, stiffness 20, damping
    0.1), [F/mass] along [u] is (5000, 0); the call leaves (5000, 0) in the
    force of pointA and (-5000, 0) in the force of pointB: the force of
    pointA has increased, not decreased, by [F/mass]. *)
Lemma applySpring_sign_counterexample :
  ∃ s', exec (applySpring 0 0 0 1 50 20 (1 / 10)) (twoPoints (0, 0) (0 + 100, 0)) = Some s' ∧
    springForceOverMass stretchedA stretchedB 50 20 (1 / 10) = (5000, 0) ∧
    cell (forces s') 0 0 = Some (5000, 0) ∧
    cell (forces s') 0 1 = Some (-5000, 0) ∧
    cell (forces s') 0 0 ≠
      Some (vsub (ptForce stretchedA) (springForceOverMass stretchedA stretchedB 50 20 (1 / 10))) ∧
    cell (forces s') 0 1 ≠
      Some (vadd (ptForce stretchedB) (springForceOverMass stretchedA stretchedB 50 20 (1 / 10))).
Proof.
  assert (HF : springForceOverMass stretchedA stretchedB 50 20 (1 / 10) = (5000, 0)).
  { unfold springForceOverMass, forceOverMass, totalForce, unitDir, vscale,
      stretchedA, stretchedB. simpl.
    rewrite distance_horizontal by lra. unfold mass. f_equal; field. }
  destruct (applySpring_points (twoPoints (0, 0) (0 + 100, 0)) 0 0 0 1 50 20 (1 / 10)
              stretchedA stretchedB)
    as (s' & E & HA & HB).
  - reflexivity.
  - reflexivity.
  - unfold stretchedA, stretchedB. simpl. rewrite distance_horizontal; lra.
  - rewrite HF in HA, HB. exists s'.
    assert (HA' : cell (forces s') 0 0 = Some (5000, 0)).
    { rewrite HA. unfold vadd, stretchedA. simpl. do 2 f_equal; lra. }
    assert (HB' : cell (forces s') 0 1 = Some (-5000, 0)).
    { rewrite HB. unfold vsub, stretchedB. simpl. do 2 f_equal; lra. }
    split; [apply (exec_eq _ _ _ _ E) |]. split; [exact HF |].
    split; [exact HA' |]. split; [exact HB' |]. rewrite HA', HB', HF. split.
    + unfold vsub, stretchedA. simpl. intros [= H _]. lra.
    + unfold vadd, stretchedB. simpl. intros [= H _]. lra.
Qed.

(** C3.  In one call at nonzero distance, the force vector added to the
    accumulator of one point is exactly the negative of the force vector
    added to the accumulator of the other, for all stiffness, damping and
    rest-length values. *)
Theorem applySpring_opposite_forces
    (s : State) (i1 j1 i2 j2 : nat) (L0 k b : R) (a c : Pt) :
  view s i1 j1 = Some a → view s i2 j2 = Some c →
  distance (ptPos a) (ptPos c) ≠ 0 →
  ∃ s' fA' fB', exec (applySpring i1 j1 i2 j2 L0 k b) s = Some s' ∧
    cell (forces s') i1 j1 = Some fA' ∧ cell (forces s') i2 j2 = Some fB' ∧
    vsub fA' (ptForce a) = vopp (vsub fB' (ptForce c)).
Proof.
  intros Ha Hc Hd.
  destruct (applySpring_points s i1 j1 i2 j2 L0 k b a c Ha Hc Hd) as (s' & E & HA & HB).
  eexists s', _, _. split; [apply (exec_eq _ _ _ _ E) |].
  split; [exact HA |]. split; [exact HB |].
  unfold vsub, vopp, vadd. simpl. f_equal; ring.
Qed.

Lemma applySpring_opposite_forces_witness :
  ∃ s' fA' fB',
    exec (applySpring 0 0 1 1 shearRestLength shearK shearDamping) square_ex = Some s' ∧
    cell (forces s') 0 0 = Some fA' ∧ cell (forces s') 1 1 = Some fB' ∧
    vsub fA' (3, 4) = vopp (vsub fB' (5, 6)).
Proof.
  apply (applySpring_opposite_forces square_ex 0 0 1 1 shearRestLength shearK shearDamping
           (mkPt (50, 50) (0, 0) (3, 4) (50, 50))
           (mkPt (100, 130) (0, 0) (5, 6) (100, 130))).
  - reflexivity.
  - reflexivity.
  - simpl. unfold distance. simpl. intros H. apply sqrt_sq_zero in H. lra.
Defined.

(** C4.  On two coincident points (distance exactly 0) the call raises no
    error and leaves the whole state, the forces of both points included,
    unchanged. *)
Theorem applySpring_coincident_noop
    (s : State) (i1 j1 i2 j2 : nat) (L0 k b : R) (a c : Pt) :
  view s i1 j1 = Some a → view s i2 j2 = Some c →
  distance (ptPos a) (ptPos c) = 0 →
  applySpring i1 j1 i2 j2 L0 k b s = Some ((), s).
Proof.
  intros Ha Hc Hd.
  apply (applySpring_coincident s i1 j1 i2 j2 L0 k b
           (ptPos a) (ptPos c) (ptVel a) (ptVel c)).
  - apply (view_grid s i1 j1 a Positions Ha).
  - apply (view_grid s i2 j2 c Positions Hc).
  - apply (view_grid s i1 j1 a Velocities Ha).
  - apply (view_grid s i2 j2 c Velocities Hc).
  - exact Hd.
Qed.

Lemma applySpring_coincident_noop_witness :
  applySpring 0 0 0 1 50 20 (1 / 10) (twoPoints (70, 80) (70, 80)) =
  Some ((), twoPoints (70, 80) (70, 80)).
Proof.
  apply (applySpring_coincident_noop (twoPoints (70, 80) (70, 80)) 0 0 0 1 50 20 (1 / 10)
           (mkPt (70, 80) (0, 0) (0, 0) (70, 80)) (mkPt (70, 80) (0, 0) (0, 0) (70, 80))).
  - reflexivity.
  - reflexivity.
  - simpl. apply distance_same.
Defined.

(** C8.  When the distance of the two points equals the rest length and
    their relative velocity is zero, one call adds exactly (0, 0) to the
    accumulator of each end point. *)
Theorem applySpring_rest_no_force
    (s : State) (i1 j1 i2 j2 : nat) (L0 k b : R) (a c : Pt) :
  view s i1 j1 = Some a → view s i2 j2 = Some c →
  distance (ptPos a) (ptPos c) = L0 →
  vsub (ptVel c) (ptVel a) = (0, 0) →
  ∃ s' fA' fB', exec (applySpring i1 j1 i2 j2 L0 k b) s = Some s' ∧
    cell (forces s') i1 j1 = Some fA' ∧ cell (forces s') i2 j2 = Some fB' ∧
    vsub fA' (ptForce a) = (0, 0) ∧ vsub fB' (ptForce c) = (0, 0).
Proof.
  intros Ha Hc HL Hv.
  assert (Hz : ∀ v : Vec, vsub v v = (0, 0)).
  { intros v. unfold vsub. f_equal; ring. }
  destruct (Req_dec_T (distance (ptPos a) (ptPos c)) 0) as [Hd|Hd].
  - exists s, (ptForce a), (ptForce c).
    split.
    { apply (exec_eq _ _ _ ()).
      apply (applySpring_coincident s i1 j1 i2 j2 L0 k b
               (ptPos a) (ptPos c) (ptVel a) (ptVel c)); auto.
      - apply (view_grid s i1 j1 a Positions Ha).
      - apply (view_grid s i2 j2 c Positions Hc).
      - apply (view_grid s i1 j1 a Velocities Ha).
      - apply (view_grid s i2 j2 c Velocities Hc). }
    split; [apply (view_grid s i1 j1 a Forces Ha) |].
    split; [apply (view_grid s i2 j2 c Forces Hc) |]. split; apply Hz.
  - destruct (applySpring_points s i1 j1 i2 j2 L0 k b a c Ha Hc Hd) as (s' & E & HA & HB).
    assert (HF : springForceOverMass a c L0 k b = (0, 0)).
    { unfold springForceOverMass, forceOverMass, totalForce, vscale.
      unfold vsub in Hv. injection Hv as Hx Hy. rewrite HL, Hx, Hy.
      unfold Rdiv. f_equal; ring. }
    rewrite HF in HA, HB. eexists s', _, _.
    split; [apply (exec_eq _ _ _ _ E) |]. split; [exact HA |]. split; [exact HB |].
    unfold vsub, vadd. simpl. split; f_equal; ring.
Qed.

Lemma applySpring_rest_no_force_witness :
  ∃ s' fA' fB',
    exec (applySpring 0 0 0 1 50 20 (1 / 10)) (twoPoints (70, 80) (70 + 50, 80)) = Some s' ∧
    cell (forces s') 0 0 = Some fA' ∧ cell (forces s') 0 1 = Some fB' ∧
    vsub fA' (0, 0) = (0, 0) ∧ vsub fB' (0, 0) = (0, 0).
Proof.
  apply (applySpring_rest_no_force (twoPoints (70, 80) (70 + 50, 80)) 0 0 0 1 50 20 (1 / 10)
           (mkPt (70, 80) (0, 0) (0, 0) (70, 80))
           (mkPt (70 + 50, 80) (0, 0) (0, 0) (70 + 50, 80))).
  - reflexivity.
  - reflexivity.
  - simpl. apply distance_horizontal. lra.
  - unfold vsub. simpl. f_equal; lra.
Defined.

(** ** Properties of calculateForces and of the integrators *)

(** C10.  After a complete pass of [calculateForces], for any dimensions of
    the grid and with or without shear springs, the accumulated forces of
    all mass points sum to exactly (0, 0). *)
Theorem calculateForces_forces_sum_to_zero (s : State) :
  wf s = true →
  ∃ s', exec calculateForces s = Some s' ∧ sumGrid (forces s') = (0, 0).
Proof.
  intros Hw. destruct (calculateForces_balanced s Hw s eq_refl) as (u & s' & E & _ & Hsum).
  exists s'. split; [apply (exec_eq _ _ _ _ E) | exact Hsum].
Qed.

Lemma calculateForces_forces_sum_to_zero_witness :
  ∃ s', exec calculateForces square_ex = Some s' ∧ sumGrid (forces s') = (0, 0).
Proof. apply (calculateForces_forces_sum_to_zero square_ex). reflexivity. Defined.

(** C5.  One step of [updatePositions] sets, for every mass point, the
    velocity to [velocity + force * h], with the force just accumulated by
    [calculateForces], and then the position to [position + velocity * h]
    with the updated velocity; the position is left at that value, without
    clamping, and the previous position is unchanged. *)
Theorem updatePositions_semi_implicit_euler (s : State) (i j : nat) (pt : Pt) :
  wf s = true → (i < rows s)%nat → (j < cols s)%nat →
  view s i j = Some pt →
  ∃ sf a s',
    exec calculateForces s = Some sf ∧ cell (forces sf) i j = Some a ∧
    exec updatePositions s = Some s' ∧
    cell (velocities s') i j = Some (vadd (ptVel pt) (vscale timeStep a)) ∧
    cell (positions s') i j =
      Some (vadd (ptPos pt) (vscale timeStep (vadd (ptVel pt) (vscale timeStep a)))) ∧
    cell (prevPositions s') i j = Some (ptPrev pt).
Proof.
  intros Hw Hi Hj Hpt.
  destruct (updatePositions_run s Hw) as (sf & s' & Ef & [Hsame _] & E & _ & _ & Hv).
  destruct (sameButForces_view s sf i j pt Hsame Hw Hi Hj Hpt) as (a & Ha & Hvf).
  specialize (Hv i j Hi Hj). rewrite Hvf in Hv. simpl in Hv.
  exists sf, a, s'. split; [apply (exec_eq _ _ _ _ Ef) |]. split; [exact Ha |].
  split; [apply (exec_eq _ _ _ _ E) |].
  split; [apply (view_grid s' i j _ Velocities Hv) |].
  split; [apply (view_grid s' i j _ Positions Hv) |].
  destruct pt. apply (view_grid s' i j _ PrevPositions Hv).
Qed.

Lemma updatePositions_semi_implicit_euler_witness :
  ∃ sf a s',
    exec calculateForces square_ex = Some sf ∧ cell (forces sf) 0 1 = Some a ∧
    exec updatePositions square_ex = Some s' ∧
    cell (velocities s') 0 1 = Some (vadd (1, 0) (vscale timeStep a)) ∧
    cell (positions s') 0 1 =
      Some (vadd (120, 50) (vscale timeStep (vadd (1, 0) (vscale timeStep a)))) ∧
    cell (prevPositions s') 0 1 = Some (120, 50).
Proof.
  apply (updatePositions_semi_implicit_euler square_ex 0 1
           (mkPt (120, 50) (1, 0) (0, 0) (120, 50))).
  - reflexivity.
  - simpl. lia.
  - simpl. lia.
  - reflexivity.
Defined.

Lemma clamp_bounds (lo hi x : R) : lo <= hi → lo <= clamp lo hi x <= hi.
Proof.
  intros H. unfold clamp. split; [apply Rmax_l |].
  apply Rmax_lub; [exact H | apply Rmin_l].
Qed.

Lemma clamp_id (lo hi x : R) : lo <= x <= hi → clamp lo hi x = x.
Proof.
  intros [H1 H2]. unfold clamp. rewrite Rmin_right by exact H2.
  apply Rmax_right, H1.
Qed.

Section Bounds.

Variables width height : R.

Lemma dragSync_local (di dj i j : nat) (s0 : State) (pt : Pt) :
  hoare (local i j s0 pt) (dragSync di dj i j) (λ _, local i j s0 (dragSyncPt di dj i j pt)).
Proof.
  unfold dragSync, dragSyncPt. destruct (bool_decide_reflect ((i, j) = (di, dj))) as [E|E].
  - injection E as <- <-. simpl.
    apply hoare_rd_then, hoare_wr_then, hoare_rd_then, hoare_wr_end.
    destruct pt as [[x y] v f [px py]]. reflexivity.
  - simpl. intros s Hs. exists (), s. split; [reflexivity | exact Hs].
Qed.

(** The run of the drag handler on a point of the grid. *)
Lemma drag_run (s0 : State) (di dj : nat) (ex ey : R) :
  wf s0 = true → (di < rows s0)%nat → (dj < cols s0)%nat →
  ∃ s', drag width height di dj ex ey s0 = Some ((), s') ∧
    cell (positions s') di dj =
      Some (clamp padding (width - padding) ex, clamp padding (height - padding) ey) ∧
    cell (prevPositions s') di dj =
      Some (clamp padding (width - padding) ex, clamp padding (height - padding) ey).
Proof.
  intros Hw0 Hi Hj. destruct (wf_view s0 di dj Hw0 Hi Hj) as [pt Hpt].
  set (q := (clamp padding (width - padding) ex, clamp padding (height - padding) ey)).
  assert (H : hoare (local di dj s0 pt) (drag width height di dj ex ey)
                (λ _ s, view s di dj =
                        Some (setF PrevPositions q (setF Positions q pt)))).
  { unfold drag.
    apply hoare_wr_then, hoare_wr_then, hoare_rd_then, hoare_wr_then.
    apply hoare_rd_then, hoare_wr_then.
    intros s1 (Hh & Hw & Hv & _).
    injection Hh as _ Hr Hc. rewrite Hw0 in Hw.
    destruct (pointwise_loops (rows s1) (cols s1) (dragSync di dj) (dragSyncPt di dj)
                (λ i j s2 p _ _, dragSync_local di dj i j s2 p) s1
                (λ i j Hi' Hj', wf_view s1 i j Hw Hi' Hj') s1 eq_refl)
      as ([] & s' & E' & _ & _ & Hv').
    exists (), s'. split.
    - rewrite (bind_eq get _ s1 s1 s1) by reflexivity. exact E'.
    - rewrite Hv', Hv. rewrite <- Hr in Hi. rewrite <- Hc in Hj.
      rewrite (proj2 (Nat.ltb_lt _ _) Hi), (proj2 (Nat.ltb_lt _ _) Hj). simpl.
      unfold dragSyncPt. rewrite bool_decide_eq_true_2 by reflexivity.
      destruct pt as [[x y] v f [px py]]. reflexivity. }
  destruct (H s0 (local_refl di dj s0 pt Hpt)) as ([] & s' & E & Hv).
  exists s'. split; [exact E |]. split.
  - apply (view_grid s' di dj _ Positions Hv).
  - destruct pt. apply (view_grid s' di dj _ PrevPositions Hv).
Qed.

(** One Verlet step keeps a point at rest where it is, when no force acts
    on it and it lies inside the padded rectangle. *)
Lemma updatePosVerlet_stationary (s : State) (i j : nat) (p : Vec) :
  wf s = true → (i < rows s)%nat → (j < cols s)%nat →
  cell (positions s) i j = Some p → cell (prevPositions s) i j = Some p →
  inBounds width height p →
  (∃ sf, exec calculateForces s = Some sf ∧ cell (forces sf) i j = Some (0, 0)) →
  ∃ s', updatePosVerlet width height s = Some ((), s') ∧ wf s' = true ∧ hdr s' = hdr s ∧
    cell (positions s') i j = Some p ∧ cell (prevPositions s') i j = Some p.
Proof.
  intros Hw Hi Hj Hp Hpp [Hbx Hby] (sf0 & Ef0 & Hf0).
  destruct (updatePosVerlet_run width height s Hw)
    as (sf & s' & Ef & [Hsame _] & E & Hh & Hw' & Hv).
  rewrite (exec_eq _ _ _ _ Ef) in Ef0. injection Ef0 as <-.
  destruct (wf_view s i j Hw Hi Hj) as [pt Hpt].
  destruct (sameButForces_view s sf i j pt Hsame Hw Hi Hj Hpt) as (a & Ha & Hvf).
  rewrite Hf0 in Ha. injection Ha as <-.
  pose proof (view_grid s i j pt Positions Hpt) as E1.
  pose proof (view_grid s i j pt PrevPositions Hpt) as E2.
  simpl in E1, E2. rewrite Hp in E1. rewrite Hpp in E2.
  injection E1 as E1. injection E2 as E2.
  specialize (Hv i j Hi Hj). rewrite Hvf in Hv. simpl in Hv.
  exists s'. split; [exact E |]. split; [exact Hw' |]. split; [exact Hh |].
  destruct pt as [q v f pq]. simpl in *. subst q pq. split.
  - pose proof (view_grid s' i j _ Positions Hv) as X. simpl in X. rewrite X.
    unfold verletPt. simpl. f_equal.
    destruct p as [x y]. simpl in *. f_equal.
    + replace (2 * x - x + 0 * timeStep * timeStep) with x by ring. apply clamp_id, Hbx.
    + replace (2 * y - y + 0 * timeStep * timeStep) with y by ring. apply clamp_id, Hby.
  - apply (view_grid s' i j _ PrevPositions Hv).
Qed.

End Bounds.

(** C6.  In a drawing area that contains the padded rectangle, after every
    step of [updatePosVerlet] the position of every mass point lies in
    [padding, width - padding] x [padding, height - padding]; a position
    written by the drag handler is clamped to the same bounds. *)
Theorem verlet_and_drag_stay_in_bounds (width height : R) (s : State) :
  2 * padding <= width → 2 * padding <= height → wf s = true →
  (∃ s', exec (updatePosVerlet width height) s = Some s' ∧
     ∀ i j, (i < rows s)%nat → (j < cols s)%nat →
       ∃ p, cell (positions s') i j = Some p ∧ inBounds width height p) ∧
  (∀ di dj ex ey, (di < rows s)%nat → (dj < cols s)%nat →
     ∃ s' p, exec (drag width height di dj ex ey) s = Some s' ∧
       cell (positions s') di dj = Some p ∧
       p = (clamp padding (width - padding) ex, clamp padding (height - padding) ey) ∧
       inBounds width height p).
Proof.
  intros Hwd Hht Hw. split.
  - destruct (updatePosVerlet_run width height s Hw)
      as (sf & s' & Ef & [Hsame _] & E & Hh & Hw' & Hv).
    exists s'. split; [apply (exec_eq _ _ _ _ E) |]. intros i j Hi Hj.
    destruct (wf_view s i j Hw Hi Hj) as [pt Hpt].
    destruct (sameButForces_view s sf i j pt Hsame Hw Hi Hj Hpt) as (a & Ha & Hvf).
    specialize (Hv i j Hi Hj). rewrite Hvf in Hv. simpl in Hv.
    eexists. split; [apply (view_grid s' i j _ Positions Hv) |].
    unfold verletPt, inBounds. simpl. split; apply clamp_bounds; lra.
  - intros di dj ex ey Hi Hj.
    destruct (drag_run width height s di dj ex ey Hw Hi Hj) as (s' & E & Hp & _).
    eexists s', _. split; [apply (exec_eq _ _ _ _ E) |]. split; [exact Hp |].
    split; [reflexivity |]. unfold inBounds. simpl. split; apply clamp_bounds; lra.
Qed.

Lemma verlet_and_drag_stay_in_bounds_witness :
  (∃ s', exec (updatePosVerlet 800 600) square_ex = Some s' ∧
     ∀ i j, (i < rows square_ex)%nat → (j < cols square_ex)%nat →
       ∃ p, cell (positions s') i j = Some p ∧ inBounds 800 600 p) ∧
  (∀ di dj ex ey, (di < rows square_ex)%nat → (dj < cols square_ex)%nat →
     ∃ s' p, exec (drag 800 600 di dj ex ey) square_ex = Some s' ∧
       cell (positions s') di dj = Some p ∧
       p = (clamp padding (800 - padding) ex, clamp padding (600 - padding) ey) ∧
       inBounds 800 600 p).
Proof.
  apply (verlet_and_drag_stay_in_bounds 800 600 square_ex).
  - unfold padding. lra.
  - unfold padding. lra.
  - reflexivity.
Defined.

Lemma steps_S_eq (step : M State ()) (s s1 : State) (k : nat) :
  step s = Some ((), s1) → exec (steps (S k) step) s = exec (steps k step) s1.
Proof. intros E. unfold exec. simpl. rewrite (bind_eq _ _ s s1 ()) by exact E. reflexivity. Qed.

(** C7.  Under the Verlet scheme, a mass point whose accumulated force is
    zero at every step, and whose current and previous positions are equal
    and lie inside the padded rectangle, keeps its position and its
    previous position through any number of steps. *)
Theorem verlet_point_at_rest_stays
    (width height : R) (n : nat) (s : State) (i j : nat) (p : Vec) :
  wf s = true → (i < rows s)%nat → (j < cols s)%nat →
  cell (positions s) i j = Some p → cell (prevPositions s) i j = Some p →
  inBounds width height p →
  (∀ k sk, (k < n)%nat → exec (steps k (updatePosVerlet width height)) s = Some sk →
     ∃ sf, exec calculateForces sk = Some sf ∧ cell (forces sf) i j = Some (0, 0)) →
  ∃ sn, exec (steps n (updatePosVerlet width height)) s = Some sn ∧
    cell (positions sn) i j = Some p ∧ cell (prevPositions sn) i j = Some p.
Proof.
  revert s. induction n as [|n IH]; intros s Hw Hi Hj Hp Hpp Hb Hf.
  - exists s. split; [reflexivity | split; assumption].
  - destruct (updatePosVerlet_stationary width height s i j p Hw Hi Hj Hp Hpp Hb)
      as (s1 & E & Hw1 & Hh & Hp1 & Hpp1).
    { apply (Hf 0%nat s); [lia | reflexivity]. }
    injection Hh as _ Hr Hc.
    destruct (IH s1) as (sn & En & Hpn & Hppn); try assumption; try lia.
    + intros k sk Hk Hsk. apply (Hf (S k) sk); [lia |].
      rewrite (steps_S_eq _ s s1 k E). exact Hsk.
    + exists sn. split; [| split; assumption].
      rewrite (steps_S_eq _ s s1 n E). exact En.
Qed.

Lemma verlet_point_at_rest_stays_witness :
  ∃ sn, exec (steps 2 (updatePosVerlet 800 600)) single_ex = Some sn ∧
    cell (positions sn) 0 0 = Some (100, 100) ∧
    cell (prevPositions sn) 0 0 = Some (100, 100).
Proof.
  apply (verlet_point_at_rest_stays 800 600 2 single_ex 0 0 (100, 100)).
  - reflexivity.
  - simpl. lia.
  - simpl. lia.
  - reflexivity.
  - reflexivity.
  - unfold inBounds, padding. simpl. lra.
  - intros k sk Hk Hsk.
    destruct k as [|[|k]]; [| | lia].
    + injection Hsk as <-. eexists. split; reflexivity.
    + vm_compute in Hsk. injection Hsk as <-. eexists. split; reflexivity.
Defined.

(** ** The springs of a pass and the edges drawn *)

Lemma bind_ext {S A B} (m1 m2 : M S A) (k1 k2 : A → M S B) :
  (∀ s, m1 s = m2 s) → (∀ a s, k1 a s = k2 a s) →
  ∀ s, (m1 ≫= k1) s = (m2 ≫= k2) s.
Proof.
  intros Hm Hk s. unfold mbind, M_bind. rewrite Hm.
  destruct (m2 s) as [[a s']|]; [apply Hk | reflexivity].
Qed.

Lemma forIn_ext {S} (l : list nat) (b1 b2 : nat → M S ()) :
  (∀ i, i ∈ l → ∀ s, b1 i s = b2 i s) → ∀ s, forIn l b1 s = forIn l b2 s.
Proof.
  induction l as [|i l IH]; intros H s; simpl; [reflexivity |].
  apply bind_ext.
  - apply H. left.
  - intros _. apply IH. intros i' Hi'. apply H. right. exact Hi'.
Qed.

Lemma forRange_ext {S} (n : nat) (b1 b2 : nat → M S ()) :
  (∀ i, (i < n)%nat → ∀ s, b1 i s = b2 i s) → ∀ s, forRange n b1 s = forRange n b2 s.
Proof.
  intros H. apply forIn_ext. intros i Hi. apply H. apply elem_of_seq in Hi. lia.
Qed.

Lemma when_ext {S} (b : bool) (c1 c2 : M S ()) :
  (b = true → ∀ s, c1 s = c2 s) → ∀ s, when b c1 s = when b c2 s.
Proof. intros H s. destruct b; simpl; [apply H; reflexivity | reflexivity]. Qed.

Lemma pushEdge_recordCall (g : Grid) (i j i' j' : nat) (L0 k b : R) (edges : list Edge) :
  is_Some (cell g i j) → is_Some (cell g i' j') →
  pushEdge g (i, j) (i', j') edges = recordCall i j i' j' L0 k b edges.
Proof.
  intros [v Hv] [v' Hv']. unfold pushEdge, recordCall, mbind, M_bind, liftO. simpl.
  rewrite Hv, Hv'. reflexivity.
Qed.

(** On well-formed arrays the edges that [drawEdges] builds are the calls
    of the spring procedure that [calculateForces] makes, in the same
    order. *)
Lemma drawEdges_springCalls (s : State) :
  wf s = true → drawEdges s = springCalls (rows s) (cols s) (task s).
Proof.
  intros Hw. unfold drawEdges, springCalls, springPass, exec.
  assert (Hc : ∀ i j, (i < rows s)%nat → (j < cols s)%nat → is_Some (cell (positions s) i j)).
  { intros i j. apply (wf_cell s Positions i j Hw). }
  match goal with
  | |- match ?m1 [] with _ => _ end = match ?m2 [] with _ => _ end =>
      assert (E : ∀ l, m1 l = m2 l); [| rewrite E; reflexivity]
  end.
  apply bind_ext.
  - apply forRange_ext. intros i Hi. apply forRange_ext. intros j Hj.
    apply bind_ext.
    + apply when_ext. intros Hg%Nat.ltb_lt l.
      apply pushEdge_recordCall; apply Hc; lia.
    + intros _. apply when_ext. intros Hg%Nat.ltb_lt l.
      apply pushEdge_recordCall; apply Hc; lia.
  - intros _. apply when_ext. intros _.
    apply forRange_ext. intros i Hi. apply forRange_ext. intros j Hj.
    apply bind_ext.
    + intros l. apply pushEdge_recordCall; apply Hc; lia.
    + intros _ l. apply pushEdge_recordCall; apply Hc; lia.
Qed.

Lemma hoare_recordCall (n i1 j1 i2 j2 : nat) (L0 k b : R) :
  hoare (λ l : list Edge, length l = n) (recordCall i1 j1 i2 j2 L0 k b)
        (λ _ l, length l = S n).
Proof.
  intros l Hl. exists (), (l ++ [((i1, j1), (i2, j2))]). split; [reflexivity |].
  rewrite length_app. simpl. lia.
Qed.

Lemma structuralCalls_count (rows cols n0 : nat) :
  hoare (λ l : list Edge, length l = n0)
    (forRange rows (λ i, forRange cols (λ j,
       when (j <? cols - 1)
         (recordCall i j i (j + 1) structuralRestLength structuralK structuralDamping);;
       when (i <? rows - 1)
         (recordCall i j (i + 1) j structuralRestLength structuralK structuralDamping))))
    (λ _ l, length l = (n0 + rows * (cols - 1) + (rows - 1) * cols)%nat).
Proof.
  eapply hoare_conseq.
  - apply (hoare_forRange
             (λ i l, length l = (n0 + i * (cols - 1) + Nat.min i (rows - 1) * cols)%nat)).
    intros i Hi. eapply hoare_conseq.
    + apply (hoare_forRange
               (λ j l, length l = (n0 + i * (cols - 1) + Nat.min i (rows - 1) * cols
                                   + Nat.min j (cols - 1)
                                   + (if i <? rows - 1 then j else 0))%nat)).
      intros j Hj. eapply hoare_bind.
      * apply (hoare_when _
                 (λ l, length l = (n0 + i * (cols - 1) + Nat.min i (rows - 1) * cols
                                   + Nat.min (S j) (cols - 1)
                                   + (if i <? rows - 1 then j else 0))%nat)).
        -- intros Hg%Nat.ltb_lt. eapply hoare_conseq; [apply hoare_recordCall | |].
           ++ intros l Hl. exact Hl.
           ++ intros ? l Hl. cbv beta in *. rewrite Hl. lia.
        -- intros Hg%Nat.ltb_ge l Hl. cbv beta in *. rewrite Hl. lia.
      * intros u. apply hoare_when.
        -- intros Hg. eapply hoare_conseq; [apply hoare_recordCall | |].
           ++ intros l Hl. exact Hl.
           ++ intros ? l Hl. cbv beta in *. rewrite Hl, Hg. lia.
        -- intros Hg l Hl. cbv beta in *. rewrite Hl, Hg. lia.
    + intros l Hl. cbv beta in *. rewrite Hl. destruct (i <? rows - 1); lia.
    + intros ? l Hl. cbv beta in *. rewrite Hl. rewrite Nat.mul_succ_l.
      destruct (Nat.ltb_spec i (rows - 1)) as [Hlt|Hge].
      * rewrite (Nat.min_l i) by lia. rewrite (Nat.min_l (S i)) by lia.
        rewrite Nat.mul_succ_l. lia.
      * rewrite (Nat.min_r i) by lia. rewrite (Nat.min_r (S i)) by lia. lia.
  - intros l Hl. cbv beta in *. rewrite Hl. lia.
  - intros ? l Hl. cbv beta in *. rewrite Hl. rewrite (Nat.min_r rows) by lia. lia.
Qed.

Lemma shearCalls_count (rows cols n0 : nat) :
  hoare (λ l : list Edge, length l = n0)
    (forRange (rows - 1) (λ i, forRange (cols - 1) (λ j,
       recordCall i j (i + 1) (j + 1) shearRestLength shearK shearDamping;;
       recordCall (i + 1) j i (j + 1) shearRestLength shearK shearDamping)))
    (λ _ l, length l = (n0 + (rows - 1) * (2 * (cols - 1)))%nat).
Proof.
  eapply hoare_conseq.
  - apply (hoare_forRange (λ i l, length l = (n0 + i * (2 * (cols - 1)))%nat)).
    intros i Hi. eapply hoare_conseq.
    + apply (hoare_forRange (λ j l, length l = (n0 + i * (2 * (cols - 1)) + 2 * j)%nat)).
      intros j Hj. eapply hoare_bind; [apply hoare_recordCall |].
      intros u. eapply hoare_conseq; [apply hoare_recordCall | |].
      * intros l Hl. exact Hl.
      * intros ? l Hl. cbv beta in *. rewrite Hl. lia.
    + intros l Hl. cbv beta in *. rewrite Hl. lia.
    + intros ? l Hl. cbv beta in *. rewrite Hl, Nat.mul_succ_l. lia.
  - intros l Hl. cbv beta in *. rewrite Hl. lia.
  - intros ? l Hl. exact Hl.
Qed.

Lemma bind_assoc_at {S A B C} (m : M S A) (k1 : A → M S B) (k2 : B → M S C) (s : S) :
  ((m ≫= k1) ≫= k2) s = (m ≫= λ a, k1 a ≫= k2) s.
Proof.
  unfold mbind, M_bind. destruct (m s) as [[a s']|]; reflexivity.
Qed.

Lemma bind_ret_r_at {S} (m : M S ()) (s : S) : (m;; mret ()) s = m s.
Proof.
  unfold mbind, M_bind. destruct (m s) as [[[] s']|]; reflexivity.
Qed.

Section Calls.

Context {S : Type} (spring : nat → nat → nat → nat → R → R → R → M S ()) (L0 k b : R).

Lemma callAll_app (l1 l2 : list Edge) (s : S) :
  callAll spring L0 k b (l1 ++ l2) s =
  (callAll spring L0 k b l1;; callAll spring L0 k b l2) s.
Proof.
  revert s. induction l1 as [|e l1 IH]; intros s; [reflexivity |].
  simpl. rewrite bind_assoc_at. apply bind_ext; [reflexivity |].
  intros _ s'. apply IH.
Qed.

(** A loop whose body makes the calls for the edges [f i] makes the calls
    for all these edges, in the order of the loop. *)
Lemma forIn_callAll (l : list nat) (body : nat → M S ()) (f : nat → list Edge) :
  (∀ i, i ∈ l → ∀ s, body i s = callAll spring L0 k b (f i) s) →
  ∀ s, forIn l body s = callAll spring L0 k b (flat_map f l) s.
Proof.
  induction l as [|i l IH]; intros H s; [reflexivity |].
  simpl. rewrite callAll_app. apply bind_ext.
  - apply H. left.
  - intros _. apply IH. intros i' Hi'. apply H. right. exact Hi'.
Qed.

Lemma forRange_callAll (n : nat) (body : nat → M S ()) (f : nat → list Edge) :
  (∀ i, (i < n)%nat → ∀ s, body i s = callAll spring L0 k b (f i) s) →
  ∀ s, forRange n body s = callAll spring L0 k b (flat_map f (seq 0 n)) s.
Proof.
  intros H. apply forIn_callAll. intros i Hi. apply H. apply elem_of_seq in Hi. lia.
Qed.

Lemma structuralLoops_callAll (rows cols : nat) (s : S) :
  forRange rows (λ i, forRange cols (λ j,
    when (j <? cols - 1) (spring i j i (j + 1)%nat L0 k b);;
    when (i <? rows - 1) (spring i j (i + 1)%nat j L0 k b))) s =
  callAll spring L0 k b (structuralEdges rows cols) s.
Proof.
  revert s. unfold structuralEdges. apply forRange_callAll. intros i _.
  apply forRange_callAll. intros j _ s.
  destruct (j <? cols - 1), (i <? rows - 1); simpl; unfold when.
  - apply bind_ext; [reflexivity |]. intros _ s'. symmetry. apply bind_ret_r_at.
  - reflexivity.
  - symmetry. apply bind_ret_r_at.
  - reflexivity.
Qed.

Lemma shearLoops_callAll (rows cols : nat) (s : S) :
  forRange (rows - 1) (λ i, forRange (cols - 1) (λ j,
    spring i j (i + 1)%nat (j + 1)%nat L0 k b;;
    spring (i + 1)%nat j i (j + 1)%nat L0 k b)) s =
  callAll spring L0 k b (shearEdges rows cols) s.
Proof.
  revert s. unfold shearEdges. apply forRange_callAll. intros i _.
  apply forRange_callAll. intros j _ s. simpl.
  apply bind_ext; [reflexivity |]. intros _ s'. symmetry. apply bind_ret_r_at.
Qed.

End Calls.

(** The spring loops of [calculateForces], for any procedure called in the
    place of [applySpring], are the calls of that procedure along the
    structural edges and then, for a task from "3" on, along the
    diagonals. *)
Lemma springPass_callAll {S} (spring : nat → nat → nat → nat → R → R → R → M S ())
    (rows cols : nat) (t : string) (s : S) :
  springPass spring rows cols t s =
  (callAll spring structuralRestLength structuralK structuralDamping
     (structuralEdges rows cols);;
   when (String.leb "3" t)
     (callAll spring shearRestLength shearK shearDamping (shearEdges rows cols))) s.
Proof.
  unfold springPass. apply bind_ext.
  - apply structuralLoops_callAll.
  - intros _. apply when_ext. intros _. apply shearLoops_callAll.
Qed.

Lemma calculateForces_callAll (s : State) :
  calculateForces s =
  (zeroForces (rows s) (cols s);;
   callAll applySpring structuralRestLength structuralK structuralDamping
     (structuralEdges (rows s) (cols s));;
   when (String.leb "3" (task s))
     (callAll applySpring shearRestLength shearK shearDamping
        (shearEdges (rows s) (cols s)))) s.
Proof.
  rewrite calculateForces_unfold. apply bind_ext; [reflexivity |].
  intros _ s'. apply springPass_callAll.
Qed.

Lemma callAll_recordCall (L0 k b : R) (edges calls : list Edge) :
  callAll recordCall L0 k b edges calls = Some ((), calls ++ edges).
Proof.
  revert calls. induction edges as [|[[i1 j1] [i2 j2]] edges IH]; intros calls; simpl.
  - rewrite app_nil_r. reflexivity.
  - unfold mbind, M_bind. simpl. rewrite IH, <- app_assoc. reflexivity.
Qed.

Lemma springCalls_edges (rows cols : nat) (t : string) :
  springCalls rows cols t =
  Some (structuralEdges rows cols ++ if String.leb "3" t then shearEdges rows cols else []).
Proof.
  unfold springCalls, exec. rewrite springPass_callAll.
  rewrite (bind_eq _ _ _ _ () (callAll_recordCall _ _ _ _ [])). simpl.
  destruct (String.leb "3" t); simpl.
  - rewrite callAll_recordCall. reflexivity.
  - rewrite app_nil_r. reflexivity.
Qed.

Lemma drawEdges_edges (s : State) :
  wf s = true →
  drawEdges s =
  Some (structuralEdges (rows s) (cols s)
        ++ if String.leb "3" (task s) then shearEdges (rows s) (cols s) else []).
Proof. intros Hw. rewrite (drawEdges_springCalls s Hw). apply springCalls_edges. Qed.

Lemma structuralEdges_length (rows cols : nat) :
  length (structuralEdges rows cols) = (rows * (cols - 1) + (rows - 1) * cols)%nat.
Proof.
  destruct (structuralCalls_count rows cols 0 [] eq_refl) as ([] & l & E & Hl).
  rewrite (structuralLoops_callAll recordCall) in E. rewrite callAll_recordCall in E.
  injection E as <-. exact Hl.
Qed.

Lemma shearEdges_length (rows cols : nat) :
  length (shearEdges rows cols) = (2 * (rows - 1) * (cols - 1))%nat.
Proof.
  destruct (shearCalls_count rows cols 0 [] eq_refl) as ([] & l & E & Hl).
  rewrite (shearLoops_callAll recordCall) in E. rewrite callAll_recordCall in E.
  injection E as <-. rewrite Hl.
  rewrite (Nat.mul_comm 2 (rows - 1)), <- Nat.mul_assoc. reflexivity.
Qed.

Lemma structuralEdges_spec (rows cols : nat) (e : Edge) :
  In e (structuralEdges rows cols) ↔
  ∃ i j, (i < rows)%nat ∧ (j < cols)%nat ∧
    (((j + 1 < cols)%nat ∧ e = ((i, j), (i, (j + 1)%nat))) ∨
     ((i + 1 < rows)%nat ∧ e = ((i, j), ((i + 1)%nat, j)))).
Proof.
  unfold structuralEdges. rewrite in_flat_map. split.
  - intros (i & Hi%in_seq & He). apply in_flat_map in He as (j & Hj%in_seq & He).
    exists i, j. split; [lia |]. split; [lia |].
    apply in_app_iff in He as [He|He].
    + destruct (Nat.ltb_spec j (cols - 1)); [| destruct He].
      destruct He as [<-|[]]. left. split; [lia | reflexivity].
    + destruct (Nat.ltb_spec i (rows - 1)); [| destruct He].
      destruct He as [<-|[]]. right. split; [lia | reflexivity].
  - intros (i & j & Hi & Hj & He). exists i. split; [apply in_seq; lia |].
    apply in_flat_map. exists j. split; [apply in_seq; lia |].
    apply in_app_iff. destruct He as [[H ->]|[H ->]].
    + left. rewrite (proj2 (Nat.ltb_lt _ _)) by lia. left. reflexivity.
    + right. rewrite (proj2 (Nat.ltb_lt _ _)) by lia. left. reflexivity.
Qed.

Lemma shearEdges_spec (rows cols : nat) (e : Edge) :
  In e (shearEdges rows cols) ↔
  ∃ i j, (i + 1 < rows)%nat ∧ (j + 1 < cols)%nat ∧
    (e = ((i, j), ((i + 1)%nat, (j + 1)%nat)) ∨ e = (((i + 1)%nat, j), (i, (j + 1)%nat))).
Proof.
  unfold shearEdges. rewrite in_flat_map. split.
  - intros (i & Hi%in_seq & He). apply in_flat_map in He as (j & Hj%in_seq & He).
    exists i, j. split; [lia |]. split; [lia |].
    destruct He as [<-|[<-|[]]]; [left | right]; reflexivity.
  - intros (i & j & Hi & Hj & He). exists i. split; [apply in_seq; lia |].
    apply in_flat_map. exists j. split; [apply in_seq; lia |].
    destruct He as [->| ->]; [left | right; left]; reflexivity.
Qed.

(** C9.  On a 3 x 3 grid, as the task-4 preset builds it, one pass of
    [calculateForces] is the zeroing of the forces followed by the calls of
    [applySpring] on exactly the 12 structural edges (the right and the down
    neighbour of every point that has one) and, when shear springs are
    enabled (task >= "3", as for task 4), on the 8 diagonals of the 2 x 2
    blocks in addition, 20 edges in all; [drawEdges] renders the same list
    of edges. *)
Theorem calculateForces_3x3_edges (s : State) :
  wf s = true → rows s = 3%nat → cols s = 3%nat →
  calculateForces s =
    (zeroForces 3 3;;
     callAll applySpring structuralRestLength structuralK structuralDamping
       structuralEdges3x3;;
     when (String.leb "3" (task s))
       (callAll applySpring shearRestLength shearK shearDamping shearEdges3x3)) s ∧
  drawEdges s =
    Some (structuralEdges3x3 ++ if String.leb "3" (task s) then shearEdges3x3 else []) ∧
  springCalls (rows s) (cols s) (task s) =
    Some (structuralEdges3x3 ++ if String.leb "3" (task s) then shearEdges3x3 else []) ∧
  length structuralEdges3x3 = 12%nat ∧ length shearEdges3x3 = 8%nat ∧
  length (structuralEdges3x3 ++ shearEdges3x3) = 20%nat ∧
  String.leb "3" "4" = true.
Proof.
  intros Hw Hr Hc.
  rewrite calculateForces_callAll, (drawEdges_edges s Hw), springCalls_edges, Hr, Hc.
  repeat split; reflexivity.
Qed.

Lemma calculateForces_3x3_edges_witness :
  ∃ s, exec (initializeGrid 800 600) (blank "4") = Some s ∧
    calculateForces s =
      (zeroForces 3 3;;
       callAll applySpring structuralRestLength structuralK structuralDamping
         structuralEdges3x3;;
       when (String.leb "3" (task s))
         (callAll applySpring shearRestLength shearK shearDamping shearEdges3x3)) s ∧
    drawEdges s =
      Some (structuralEdges3x3 ++ if String.leb "3" (task s) then shearEdges3x3 else []) ∧
    springCalls (rows s) (cols s) (task s) =
      Some (structuralEdges3x3 ++ if String.leb "3" (task s) then shearEdges3x3 else []) ∧
    length structuralEdges3x3 = 12%nat ∧ length shearEdges3x3 = 8%nat ∧
    length (structuralEdges3x3 ++ shearEdges3x3) = 20%nat ∧
    String.leb "3" "4" = true.
Proof.
  eexists. split; [reflexivity |].
  match goal with
  | |- calculateForces ?s = _ ∧ _ =>
      exact (calculateForces_3x3_edges s eq_refl eq_refl eq_refl)
  end.
Defined.

(** X11.  The picture shows the springs that are simulated.  For every
    well-formed grid and every task, one pass of [calculateForces] is the
    zeroing of the forces followed by the calls of [applySpring] along a
    list of edges, and [drawEdges] builds exactly that list, in the same
    order: the right and down neighbours of every point that has them, and
    then, for a task from "3" on, the two diagonals of every block of
    2 x 2 points. *)
Theorem drawEdges_are_the_springs (s : State) :
  wf s = true →
  calculateForces s =
    (zeroForces (rows s) (cols s);;
     callAll applySpring structuralRestLength structuralK structuralDamping
       (structuralEdges (rows s) (cols s));;
     when (String.leb "3" (task s))
       (callAll applySpring shearRestLength shearK shearDamping
          (shearEdges (rows s) (cols s)))) s ∧
  drawEdges s =
    Some (structuralEdges (rows s) (cols s)
          ++ if String.leb "3" (task s) then shearEdges (rows s) (cols s) else []) ∧
  (∀ e, In e (structuralEdges (rows s) (cols s)) ↔
     ∃ i j, (i < rows s)%nat ∧ (j < cols s)%nat ∧
       (((j + 1 < cols s)%nat ∧ e = ((i, j), (i, (j + 1)%nat))) ∨
        ((i + 1 < rows s)%nat ∧ e = ((i, j), ((i + 1)%nat, j))))) ∧
  (∀ e, In e (shearEdges (rows s) (cols s)) ↔
     ∃ i j, (i + 1 < rows s)%nat ∧ (j + 1 < cols s)%nat ∧
       (e = ((i, j), ((i + 1)%nat, (j + 1)%nat)) ∨
        e = (((i + 1)%nat, j), (i, (j + 1)%nat)))).
Proof.
  intros Hw. split; [apply calculateForces_callAll |].
  split; [apply drawEdges_edges, Hw |].
  split; [apply structuralEdges_spec | apply shearEdges_spec].
Qed.

Lemma drawEdges_are_the_springs_witness :
  calculateForces square_ex =
    (zeroForces (rows square_ex) (cols square_ex);;
     callAll applySpring structuralRestLength structuralK structuralDamping
       (structuralEdges (rows square_ex) (cols square_ex));;
     when (String.leb "3" (task square_ex))
       (callAll applySpring shearRestLength shearK shearDamping
          (shearEdges (rows square_ex) (cols square_ex)))) square_ex ∧
  drawEdges square_ex =
    Some (structuralEdges (rows square_ex) (cols square_ex)
          ++ if String.leb "3" (task square_ex) then shearEdges (rows square_ex) (cols square_ex) else []) ∧
  (∀ e, In e (structuralEdges (rows square_ex) (cols square_ex)) ↔
     ∃ i j, (i < rows square_ex)%nat ∧ (j < cols square_ex)%nat ∧
       (((j + 1 < cols square_ex)%nat ∧ e = ((i, j), (i, (j + 1)%nat))) ∨
        ((i + 1 < rows square_ex)%nat ∧ e = ((i, j), ((i + 1)%nat, j))))) ∧
  (∀ e, In e (shearEdges (rows square_ex) (cols square_ex)) ↔
     ∃ i j, (i + 1 < rows square_ex)%nat ∧ (j + 1 < cols square_ex)%nat ∧
       (e = ((i, j), ((i + 1)%nat, (j + 1)%nat)) ∨
        e = (((i + 1)%nat, j), (i, (j + 1)%nat)))).
Proof. apply (drawEdges_are_the_springs square_ex). reflexivity. Defined.

(** X12.  The number of springs.  On a well-formed grid of [rows] x [cols]
    points, one pass of [calculateForces] calls [applySpring] along, and
    [drawEdges] draws, [rows (cols - 1) + (rows - 1) cols] structural edges
    and, for a task from "3" on, [2 (rows - 1) (cols - 1)] diagonals in
    addition. *)
Theorem edge_count (s : State) :
  wf s = true →
  calculateForces s =
    (zeroForces (rows s) (cols s);;
     callAll applySpring structuralRestLength structuralK structuralDamping
       (structuralEdges (rows s) (cols s));;
     when (String.leb "3" (task s))
       (callAll applySpring shearRestLength shearK shearDamping
          (shearEdges (rows s) (cols s)))) s ∧
  drawEdges s =
    Some (structuralEdges (rows s) (cols s)
          ++ if String.leb "3" (task s) then shearEdges (rows s) (cols s) else []) ∧
  length (structuralEdges (rows s) (cols s)) =
    (rows s * (cols s - 1) + (rows s - 1) * cols s)%nat ∧
  length (shearEdges (rows s) (cols s)) = (2 * (rows s - 1) * (cols s - 1))%nat.
Proof.
  intros Hw. split; [apply calculateForces_callAll |].
  split; [apply drawEdges_edges, Hw |].
  split; [apply structuralEdges_length | apply shearEdges_length].
Qed.

Lemma edge_count_witness :
  calculateForces square_ex =
    (zeroForces (rows square_ex) (cols square_ex);;
     callAll applySpring structuralRestLength structuralK structuralDamping
       (structuralEdges (rows square_ex) (cols square_ex));;
     when (String.leb "3" (task square_ex))
       (callAll applySpring shearRestLength shearK shearDamping
          (shearEdges (rows square_ex) (cols square_ex)))) square_ex ∧
  drawEdges square_ex =
    Some (structuralEdges (rows square_ex) (cols square_ex)
          ++ if String.leb "3" (task square_ex) then shearEdges (rows square_ex) (cols square_ex) else []) ∧
  length (structuralEdges (rows square_ex) (cols square_ex)) =
    (rows square_ex * (cols square_ex - 1) + (rows square_ex - 1) * cols square_ex)%nat ∧
  length (shearEdges (rows square_ex) (cols square_ex)) =
    (2 * (rows square_ex - 1) * (cols square_ex - 1))%nat.
Proof. apply (edge_count square_ex). reflexivity. Defined.

(** ** initializeGrid *)

Lemma wfGrid_buildGrid (r c : nat) (f : nat → nat → Vec) :
  wfGrid r c (buildGrid r c f) = true.
Proof.
  unfold wfGrid, buildGrid. rewrite length_map, length_seq, Nat.eqb_refl. simpl.
  apply forallb_forall. intros row (i & <- & _)%in_map_iff.
  rewrite length_map, length_seq. apply Nat.eqb_refl.
Qed.

Lemma cell_buildGrid (r c : nat) (f : nat → nat → Vec) (i j : nat) :
  (i < r)%nat → (j < c)%nat → cell (buildGrid r c f) i j = Some (f i j).
Proof.
  intros Hi Hj. unfold cell, buildGrid.
  change (((λ i, (λ j, f i j) <$> seq 0 c) <$> seq 0 r) !! i ≫= (.!! j) = Some (f i j)).
  rewrite list_lookup_fmap, (lookup_seq_lt 0 r i Hi). simpl.
  rewrite list_lookup_fmap, (lookup_seq_lt 0 c j Hj). reflexivity.
Qed.

(** [initializeGrid] builds a well-formed state: for the tasks 1 to 4, and
    for task 5 when [rows] and [cols] are at least 1. *)
Lemma initializeGrid_wf (width height : R) (s : State) :
  (task s = "5"%string → (1 ≤ rows s ∧ 1 ≤ cols s)%nat) →
  ∃ s', initializeGrid width height s = Some ((), s') ∧ wf s' = true ∧ task s' = task s.
Proof.
  intros Hv. unfold initializeGrid. rewrite (bind_eq get _ s s s) by reflexivity.
  cbv zeta.
  destruct (String.eqb_spec (task s) "1") as [E1|N1];
    [rewrite E1; eexists; split; [reflexivity | split; reflexivity] |].
  destruct (String.eqb_spec (task s) "2") as [E2|N2];
    [rewrite E2; eexists; split; [reflexivity | split; reflexivity] |].
  destruct (String.eqb_spec (task s) "3") as [E3|N3];
    [rewrite E3; eexists; split; [reflexivity | split; reflexivity] |].
  destruct (String.eqb_spec (task s) "4") as [E4|N4];
    [rewrite E4; eexists; split; [reflexivity | split; reflexivity] |].
  unfold mbind, M_bind, modify, when, mret, M_ret.
  assert (Hw : ∀ P : Grid, wfGrid (rows s) (cols s) P = true →
            wf (mkState (task s) (rows s) (cols s) P
                  (buildGrid (rows s) (cols s) (λ _ _, (0, 0)))
                  (buildGrid (rows s) (cols s) (λ _ _, (0, 0))) P) = true).
  { intros P HP. unfold wf. simpl. rewrite HP, !wfGrid_buildGrid. reflexivity. }
  destruct (String.eqb_spec (task s) "5") as [E5|N5].
  - destruct (Hv E5) as [Hr Hc].
    erewrite upd_eq.
    + eexists. split; [reflexivity |]. rewrite wf_setPt. split; [| reflexivity].
      apply Hw, wfGrid_buildGrid.
    + cbn [grid positions]. apply cell_buildGrid; [lia | apply Nat.div_lt; lia].
  - eexists. split; [reflexivity |]. split; [| reflexivity]. apply Hw, wfGrid_buildGrid.
Qed.

(** C2 fails on the code.  For task 1 in a drawing area of 800 x 600,
    [initializeGrid] copies the positions into [prevPositions] before it
    shifts the point (0, 1) by 20: afterwards the position of that point is
    (770, 300) and its previous position is (750, 300).  The point (0, 0),
    which is not disturbed, has equal position and previous position. *)
Theorem initializeGrid_task1_prev_stale :
  ∃ s', exec (initializeGrid 800 600) (blank "1") = Some s' ∧
    cell (positions s') 0 1 = Some (770, 300) ∧
    cell (prevPositions s') 0 1 = Some (750, 300) ∧
    cell (positions s') 0 1 ≠ cell (prevPositions s') 0 1 ∧
    cell (positions s') 0 0 = Some (50, 300) ∧
    cell (prevPositions s') 0 0 = Some (50, 300).
Proof.
  eexists. split; [reflexivity |].
  assert (E1 : 50 + 1 * ((800 - 2 * 50) / (1 + 1 - 1)) + 20 = 770) by (field_simplify; lra).
  assert (E2 : 50 + 1 * ((800 - 2 * 50) / (1 + 1 - 1)) = 750) by (field_simplify; lra).
  assert (E3 : 600 / 2 - (1 - 1) * 0 / 2 + 0 * 0 = 300) by (field_simplify; lra).
  assert (E4 : 50 + 0 * ((800 - 2 * 50) / (1 + 1 - 1)) = 50) by (field_simplify; lra).
  unfold padding, buildGrid, cell. simpl. rewrite E1, E2, E3, E4.
  repeat split; try reflexivity. intros [= H]. lra.
Qed.

(** * Further properties of the program *)

(** ** Equality of grids and states *)

Lemma vadd_0_r (v : Vec) : vadd v (0, 0) = v.
Proof. destruct v as [x y]. unfold vadd. simpl. f_equal; lra. Qed.

Lemma cell_shape (g : Grid) (i j : nat) :
  is_Some (cell g i j) ↔ ∃ n, (length <$> g) !! i = Some n ∧ (j < n)%nat.
Proof.
  rewrite list_lookup_fmap. unfold cell. destruct (g !! i) as [row|]; simpl.
  - rewrite lookup_lt_is_Some. split.
    + intros H. exists (length row). split; [reflexivity | exact H].
    + intros (n & [= <-] & H). exact H.
  - split; [intros [v H]; discriminate | intros (n & H & _); discriminate].
Qed.

Lemma cell_same_shape (g g' : Grid) (i j : nat) :
  map length g = map length g' → is_Some (cell g i j) → is_Some (cell g' i j).
Proof.
  intros Hs H. apply cell_shape. apply cell_shape in H.
  change (length <$> g = length <$> g') in Hs. rewrite <- Hs. exact H.
Qed.

(** Two grids of the same shape with the same points are equal. *)
Lemma grid_ext (g g' : Grid) :
  map length g = map length g' → (∀ i j, cell g i j = cell g' i j) → g = g'.
Proof.
  intros Hs Hc. change (length <$> g = length <$> g') in Hs.
  apply list_eq. intros i.
  assert (Hi : (length <$> g) !! i = (length <$> g') !! i) by (rewrite Hs; reflexivity).
  rewrite !list_lookup_fmap in Hi.
  destruct (g !! i) as [row|] eqn:E, (g' !! i) as [row'|] eqn:E'; simpl in Hi;
    try discriminate; [| reflexivity].
  f_equal. apply list_eq. intros j. specialize (Hc i j). unfold cell in Hc.
  rewrite E, E' in Hc. exact Hc.
Qed.

Lemma state_ext (s s' : State) :
  hdr s = hdr s' → positions s = positions s' → velocities s = velocities s' →
  forces s = forces s' → prevPositions s = prevPositions s' → s = s'.
Proof.
  destruct s, s'. unfold hdr. simpl. intros [= -> -> ->] -> -> -> ->. reflexivity.
Qed.

Lemma sameButForces_trans (s0 s1 s2 : State) :
  sameButForces s0 s1 → sameButForces s1 s2 → sameButForces s0 s2.
Proof.
  intros (H1 & H2 & H3 & H4 & H5) (K1 & K2 & K3 & K4 & K5).
  repeat split; congruence.
Qed.

Lemma sameButForces_sym (s0 s1 : State) : sameButForces s0 s1 → sameButForces s1 s0.
Proof. intros (H1 & H2 & H3 & H4 & H5). repeat split; congruence. Qed.

(** Two states that differ in the forces only, and have the same forces
    at every point, are equal. *)
Lemma sameButForces_ext (s s' : State) :
  sameButForces s s' → (∀ i j, cell (forces s) i j = cell (forces s') i j) → s = s'.
Proof.
  intros (H1 & H2 & H3 & H4 & H5) Hc. apply state_ext; try congruence.
  apply grid_ext; [congruence | exact Hc].
Qed.

Lemma sameButForces_point (s0 s : State) (i j : nat) (pt : Pt) :
  sameButForces s0 s → view s0 i j = Some pt →
  ∃ f, cell (forces s) i j = Some f ∧ view s i j = Some (setF Forces f pt).
Proof.
  intros (Hh & Hp & Hv & Hpp & Hl) Hpt.
  pose proof (view_grid s0 i j pt Positions Hpt) as E1.
  pose proof (view_grid s0 i j pt Velocities Hpt) as E2.
  pose proof (view_grid s0 i j pt Forces Hpt) as E3.
  pose proof (view_grid s0 i j pt PrevPositions Hpt) as E4.
  simpl in *.
  destruct (cell_same_shape (forces s0) (forces s) i j) as [f Hf];
    [congruence | eauto |].
  exists f. split; [exact Hf |]. unfold view.
  rewrite Hp, Hv, Hpp, E1, E2, E4, Hf. destruct pt; reflexivity.
Qed.

(** ** applySpring, point by point *)

Lemma distance_sym (p q : Vec) : distance p q = distance q p.
Proof. unfold distance. f_equal. ring. Qed.

(** One call changes the forces only, and adds [springDelta] to the force
    of every point. *)
Lemma applySpring_cells (s : State) (i1 j1 i2 j2 : nat) (L0 k b : R) (a c : Pt) :
  view s i1 j1 = Some a → view s i2 j2 = Some c →
  ∃ s', applySpring i1 j1 i2 j2 L0 k b s = Some ((), s') ∧ sameButForces s s' ∧
    ∀ i j, cell (forces s') i j =
           (λ f, vadd f (springDelta a c (i1, j1) (i2, j2) L0 k b (i, j)))
             <$> cell (forces s) i j.
Proof.
  intros Ha Hc.
  pose proof (view_grid s i1 j1 a Positions Ha) as HpA.
  pose proof (view_grid s i2 j2 c Positions Hc) as HpB.
  pose proof (view_grid s i1 j1 a Velocities Ha) as HvA.
  pose proof (view_grid s i2 j2 c Velocities Hc) as HvB.
  pose proof (view_grid s i1 j1 a Forces Ha) as HfA.
  pose proof (view_grid s i2 j2 c Forces Hc) as HfB.
  simpl in *. unfold springDelta.
  destruct (Req_dec_T (distance (ptPos a) (ptPos c)) 0) as [Hd|Hd].
  - exists s. split; [eapply applySpring_coincident; eauto |].
    split; [apply sameButForces_refl |]. intros i j.
    destruct (cell (forces s) i j) as [f|]; simpl; [rewrite vadd_0_r |]; reflexivity.
  - destruct (applySpring_apart s i1 j1 i2 j2 L0 k b _ _ _ _ _ _ HpA HpB HvA HvB HfA HfB Hd)
      as [Hne E].
    eexists. split; [exact E |].
    split; [apply sameButForces_setPt, sameButForces_setPt, sameButForces_refl |].
    intros i j. simpl. fold (springForceOverMass a c L0 k b).
    destruct (bool_decide_reflect ((i, j) = (i1, j1))) as [[= -> ->]|N1].
    + rewrite cell_setCell_ne by congruence.
      rewrite (cell_setCell_eq _ i1 j1 _ _ HfA), HfA. reflexivity.
    + destruct (bool_decide_reflect ((i, j) = (i2, j2))) as [[= -> ->]|N2].
      * erewrite cell_setCell_eq
          by (rewrite cell_setCell_ne by exact Hne; exact HfB).
        rewrite HfB. reflexivity.
      * rewrite !cell_setCell_ne by assumption.
        destruct (cell (forces s) i j) as [f|]; simpl; [rewrite vadd_0_r |]; reflexivity.
Qed.

Lemma springDelta_setF (a c : Pt) (fa fc : Vec) (A B : nat * nat) (L0 k b : R)
    (p : nat * nat) :
  springDelta (setF Forces fa a) (setF Forces fc c) A B L0 k b p =
  springDelta a c A B L0 k b p.
Proof. reflexivity. Qed.

Lemma springForceOverMass_swap (a c : Pt) (L0 k b : R) :
  springForceOverMass c a L0 k b = vopp (springForceOverMass a c L0 k b).
Proof.
  unfold springForceOverMass, forceOverMass, totalForce, unitDir, vscale, vopp. simpl.
  rewrite (distance_sym (ptPos c) (ptPos a)). unfold Rdiv. f_equal; ring.
Qed.

Lemma vopp_vopp (v : Vec) : vopp (vopp v) = v.
Proof. destruct v as [x y]. unfold vopp. simpl. f_equal; ring. Qed.

Lemma springDelta_swap (a c : Pt) (A B : nat * nat) (L0 k b : R) (p : nat * nat) :
  (A = B → a = c) →
  springDelta c a B A L0 k b p = springDelta a c A B L0 k b p.
Proof.
  intros Hab. unfold springDelta. rewrite (distance_sym (ptPos c) (ptPos a)).
  destruct (Req_dec_T (distance (ptPos a) (ptPos c)) 0) as [Hd|Hd]; [reflexivity |].
  assert (Hne : A ≠ B).
  { intros E. apply Hd. rewrite (Hab E). apply distance_same. }
  rewrite springForceOverMass_swap, vopp_vopp.
  destruct (bool_decide_reflect (p = B)) as [EB|NB],
           (bool_decide_reflect (p = A)) as [EA|NA]; try reflexivity.
  exfalso. apply Hne. congruence.
Qed.

(** X1.  The orientation of an edge does not matter: exchanging the two end
    points in a call of [applySpring] gives the same state. *)
Theorem applySpring_swap_ends (s : State) (i1 j1 i2 j2 : nat) (L0 k b : R) (a c : Pt) :
  view s i1 j1 = Some a → view s i2 j2 = Some c →
  applySpring i2 j2 i1 j1 L0 k b s = applySpring i1 j1 i2 j2 L0 k b s.
Proof.
  intros Ha Hc.
  destruct (applySpring_cells s i1 j1 i2 j2 L0 k b a c Ha Hc) as (s1 & E1 & S1 & C1).
  destruct (applySpring_cells s i2 j2 i1 j1 L0 k b c a Hc Ha) as (s2 & E2 & S2 & C2).
  rewrite E1, E2. do 2 f_equal. apply sameButForces_ext.
  - apply (sameButForces_trans _ s); [apply sameButForces_sym, S2 | exact S1].
  - intros i j. rewrite C1, C2. rewrite springDelta_swap; [reflexivity |].
    intros [= -> ->]. congruence.
Qed.

Lemma applySpring_swap_ends_witness :
  applySpring 1 1 0 0 shearRestLength shearK shearDamping square_ex =
  applySpring 0 0 1 1 shearRestLength shearK shearDamping square_ex.
Proof.
  apply (applySpring_swap_ends square_ex 0 0 1 1 shearRestLength shearK shearDamping
           (mkPt (50, 50) (0, 0) (3, 4) (50, 50))
           (mkPt (100, 130) (0, 0) (5, 6) (100, 130))); reflexivity.
Defined.

(** X2.  Calls of [applySpring] commute: two springs, which may share an
    end point, give the same state in either order. *)
Theorem applySpring_commute
    (s : State) (i1 j1 i2 j2 i3 j3 i4 j4 : nat) (L0 k b L0' k' b' : R) (a c a' c' : Pt) :
  view s i1 j1 = Some a → view s i2 j2 = Some c →
  view s i3 j3 = Some a' → view s i4 j4 = Some c' →
  (applySpring i1 j1 i2 j2 L0 k b;; applySpring i3 j3 i4 j4 L0' k' b') s =
  (applySpring i3 j3 i4 j4 L0' k' b';; applySpring i1 j1 i2 j2 L0 k b) s.
Proof.
  intros Ha Hc Ha' Hc'.
  destruct (applySpring_cells s i1 j1 i2 j2 L0 k b a c Ha Hc) as (s1 & E1 & S1 & C1).
  destruct (applySpring_cells s i3 j3 i4 j4 L0' k' b' a' c' Ha' Hc') as (s2 & E2 & S2 & C2).
  destruct (sameButForces_point s s1 i3 j3 a' S1 Ha') as (f3 & _ & V3).
  destruct (sameButForces_point s s1 i4 j4 c' S1 Hc') as (f4 & _ & V4).
  destruct (sameButForces_point s s2 i1 j1 a S2 Ha) as (f1 & _ & V1).
  destruct (sameButForces_point s s2 i2 j2 c S2 Hc) as (f2 & _ & V2).
  destruct (applySpring_cells s1 i3 j3 i4 j4 L0' k' b' _ _ V3 V4) as (s12 & E12 & S12 & C12).
  destruct (applySpring_cells s2 i1 j1 i2 j2 L0 k b _ _ V1 V2) as (s21 & E21 & S21 & C21).
  rewrite (bind_eq _ _ s s1 ()) by exact E1. rewrite (bind_eq _ _ s s2 ()) by exact E2.
  rewrite E12, E21. do 2 f_equal. apply sameButForces_ext.
  - apply (sameButForces_trans _ s).
    + apply sameButForces_sym, (sameButForces_trans _ s1); assumption.
    + apply (sameButForces_trans _ s2); assumption.
  - intros i j. rewrite C12, C1, C21, C2. rewrite !springDelta_setF.
    destruct (cell (forces s) i j) as [f|]; [| reflexivity]. simpl. f_equal.
    unfold vadd. simpl. f_equal; ring.
Qed.

Lemma applySpring_commute_witness :
  (applySpring 0 0 0 1 structuralRestLength structuralK structuralDamping;;
   applySpring 0 0 1 1 shearRestLength shearK shearDamping) square_ex =
  (applySpring 0 0 1 1 shearRestLength shearK shearDamping;;
   applySpring 0 0 0 1 structuralRestLength structuralK structuralDamping) square_ex.
Proof.
  apply (applySpring_commute square_ex 0 0 0 1 0 0 1 1
           structuralRestLength structuralK structuralDamping
           shearRestLength shearK shearDamping
           (mkPt (50, 50) (0, 0) (3, 4) (50, 50))
           (mkPt (120, 50) (1, 0) (0, 0) (120, 50))
           (mkPt (50, 50) (0, 0) (3, 4) (50, 50))
           (mkPt (100, 130) (0, 0) (5, 6) (100, 130))); reflexivity.
Defined.

(** X3.  [applySpring] accumulates: at nonzero distance a second call on
    the same edge adds the contribution [F/mass] a second time, so two calls
    leave twice the contribution in the forces of both end points. *)
Theorem applySpring_twice (s : State) (i1 j1 i2 j2 : nat) (L0 k b : R) (a c : Pt) :
  view s i1 j1 = Some a → view s i2 j2 = Some c →
  distance (ptPos a) (ptPos c) ≠ 0 →
  ∃ s2, exec (applySpring i1 j1 i2 j2 L0 k b;; applySpring i1 j1 i2 j2 L0 k b) s = Some s2 ∧
    cell (forces s2) i1 j1 =
      Some (vadd (ptForce a) (vscale 2 (springForceOverMass a c L0 k b))) ∧
    cell (forces s2) i2 j2 =
      Some (vsub (ptForce c) (vscale 2 (springForceOverMass a c L0 k b))).
Proof.
  intros Ha Hc Hd.
  assert (Hne : (i2, j2) ≠ (i1, j1)).
  { intros [= -> ->]. apply Hd. rewrite Ha in Hc. injection Hc as <-. apply distance_same. }
  destruct (applySpring_cells s i1 j1 i2 j2 L0 k b a c Ha Hc) as (s1 & E1 & S1 & C1).
  destruct (sameButForces_point s s1 i1 j1 a S1 Ha) as (f1 & _ & V1).
  destruct (sameButForces_point s s1 i2 j2 c S1 Hc) as (f2 & _ & V2).
  destruct (applySpring_cells s1 i1 j1 i2 j2 L0 k b _ _ V1 V2) as (s2 & E2 & S2 & C2).
  exists s2. split.
  { apply (exec_eq _ _ _ ()). rewrite (bind_eq _ _ s s1 ()) by exact E1. exact E2. }
  rewrite !C2, !C1, !springDelta_setF.
  pose proof (view_grid s i1 j1 a Forces Ha) as HfA.
  pose proof (view_grid s i2 j2 c Forces Hc) as HfB.
  simpl in HfA, HfB. rewrite HfA, HfB.
  unfold springDelta.
  destruct (Req_dec_T (distance (ptPos a) (ptPos c)) 0) as [E|_]; [contradiction |].
  rewrite (bool_decide_eq_true_2 ((i1, j1) = (i1, j1))) by reflexivity.
  rewrite (bool_decide_eq_false_2 ((i2, j2) = (i1, j1))) by exact Hne.
  rewrite (bool_decide_eq_true_2 ((i2, j2) = (i2, j2))) by reflexivity.
  simpl. unfold vadd, vsub, vopp, vscale. simpl. split; do 2 f_equal; ring.
Qed.

Lemma applySpring_twice_witness :
  ∃ s2, exec (applySpring 0 0 0 1 50 20 (1 / 10);; applySpring 0 0 0 1 50 20 (1 / 10))
          (twoPoints (0, 0) (0 + 100, 0)) = Some s2 ∧
    cell (forces s2) 0 0 =
      Some (vadd (0, 0) (vscale 2 (springForceOverMass stretchedA stretchedB 50 20 (1 / 10)))) ∧
    cell (forces s2) 0 1 =
      Some (vsub (0, 0) (vscale 2 (springForceOverMass stretchedA stretchedB 50 20 (1 / 10)))).
Proof.
  apply (applySpring_twice (twoPoints (0, 0) (0 + 100, 0)) 0 0 0 1 50 20 (1 / 10)
           stretchedA stretchedB).
  - reflexivity.
  - reflexivity.
  - unfold stretchedA, stretchedB. simpl. rewrite distance_horizontal; lra.
Defined.

(** ** calculateForces rebuilds the forces *)

Lemma wfGrid_cell_inv (r c : nat) (g : Grid) (i j : nat) :
  wfGrid r c g = true → is_Some (cell g i j) → (i < r)%nat ∧ (j < c)%nat.
Proof.
  unfold wfGrid. intros [Hl Hr]%andb_true_iff [v (row & Hi & Hj)%cell_Some].
  apply Nat.eqb_eq in Hl. rewrite forallb_forall in Hr.
  assert (Hlen : length row = c).
  { apply Nat.eqb_eq, Hr, list_elem_of_In, list_elem_of_lookup. eauto. }
  apply lookup_lt_Some in Hi, Hj. lia.
Qed.

Lemma wf_forces (s : State) : wf s = true → wfGrid (rows s) (cols s) (forces s) = true.
Proof.
  unfold wf. intros [[[_ _]%andb_true_iff Hf]%andb_true_iff _]%andb_true_iff. exact Hf.
Qed.

Lemma zeroForces_cells (s0 : State) :
  wf s0 = true →
  ∃ z, zeroForces (rows s0) (cols s0) s0 = Some ((), z) ∧ sameButForces s0 z ∧
    ∀ i j, (i < rows s0)%nat → (j < cols s0)%nat → cell (forces z) i j = Some (0, 0).
Proof.
  intros Hw0.
  assert (H1 : hoare (λ s, s = s0) (zeroForces (rows s0) (cols s0))
                 (λ _, sameButForces s0)).
  { apply hoare_conseq with (P' := sameButForces s0) (Q' := λ _, sameButForces s0).
    - apply hoare_forRange_const. intros i Hi.
      apply hoare_forRange_const. intros j Hj. apply zeroBody_same; assumption.
    - intros s ->. apply sameButForces_refl.
    - intros a s H. exact H. }
  assert (H2 := pointwise_loops (rows s0) (cols s0)
                  (λ i j, wr Forces i j I0 0;; wr Forces i j I1 0)
                  (λ _ _, setF Forces (0, 0))
                  (λ i j s1 pt _ _, zeroBody_local i j s1 pt) s0
                  (λ i j Hi Hj, wf_view s0 i j Hw0 Hi Hj)).
  destruct (hoare_conj _ _ _ _ H1 H2 s0 eq_refl) as ([] & z & E & Hsame & _ & _ & Hv).
  exists z. split; [exact E |]. split; [exact Hsame |]. intros i j Hi Hj.
  specialize (Hv i j).
  rewrite (proj2 (Nat.ltb_lt _ _) Hi), (proj2 (Nat.ltb_lt _ _) Hj) in Hv. simpl in Hv.
  destruct (wf_view s0 i j Hw0 Hi Hj) as [pt Hpt]. rewrite Hpt in Hv.
  apply (view_grid z i j _ Forces Hv).
Qed.

(** X4.  On well-formed arrays [calculateForces] raises no error and writes
    to [forces] only: [rows], [cols], the task, the positions, the
    velocities and the previous positions are unchanged, and the arrays keep
    their dimensions. *)
Theorem calculateForces_writes_forces_only (s : State) :
  wf s = true →
  ∃ s', calculateForces s = Some ((), s') ∧
    task s' = task s ∧ rows s' = rows s ∧ cols s' = cols s ∧
    positions s' = positions s ∧ velocities s' = velocities s ∧
    prevPositions s' = prevPositions s ∧ wf s' = true.
Proof.
  intros Hw. destruct (calculateForces_balanced s Hw s eq_refl) as ([] & s' & E & Hsame & _).
  exists s'. split; [exact E |].
  pose proof (sameButForces_wf s s' Hsame) as Hw'.
  destruct Hsame as (Hh & Hp & Hv & Hpp & _). injection Hh as Ht Hr Hc.
  repeat split; congruence.
Qed.

Lemma calculateForces_writes_forces_only_witness :
  ∃ s', calculateForces square_ex = Some ((), s') ∧
    task s' = task square_ex ∧ rows s' = rows square_ex ∧ cols s' = cols square_ex ∧
    positions s' = positions square_ex ∧ velocities s' = velocities square_ex ∧
    prevPositions s' = prevPositions square_ex ∧ wf s' = true.
Proof. apply (calculateForces_writes_forces_only square_ex). reflexivity. Defined.

Lemma calculateForces_same_result (s s2 : State) :
  wf s = true → sameButForces s s2 →
  calculateForces s2 = calculateForces s.
Proof.
  intros Hw Hsame.
  assert (Hw2 : wf s2 = true) by (rewrite (sameButForces_wf s s2 Hsame); exact Hw).
  destruct (zeroForces_cells s Hw) as (z & Ez & Sz & Cz).
  destruct (zeroForces_cells s2 Hw2) as (z2 & Ez2 & Sz2 & Cz2).
  pose proof Hsame as (Hh & _). injection Hh as Ht Hr Hc.
  assert (Hz : z2 = z).
  { apply sameButForces_ext.
    - apply (sameButForces_trans _ s2); [apply sameButForces_sym, Sz2 |].
      apply (sameButForces_trans _ s); [apply sameButForces_sym, Hsame | exact Sz].
    - intros i j.
      assert (Wz : wfGrid (rows s) (cols s) (forces z) = true).
      { rewrite <- (wfGrid_shape _ _ (forces s) (forces z)); [apply wf_forces, Hw |].
        symmetry. apply Sz. }
      assert (Wz2 : wfGrid (rows s) (cols s) (forces z2) = true).
      { rewrite <- Hr, <- Hc.
        rewrite <- (wfGrid_shape _ _ (forces s2) (forces z2)); [apply wf_forces, Hw2 |].
        symmetry. apply Sz2. }
      destruct (cell (forces z2) i j) as [v|] eqn:E2.
      + destruct (wfGrid_cell_inv _ _ _ i j Wz2) as [Hi Hj]; [rewrite E2; eauto |].
        rewrite Cz by assumption. rewrite Cz2 in E2 by lia. congruence.
      + destruct (cell (forces z) i j) as [v|] eqn:E1; [| reflexivity].
        destruct (wfGrid_cell_inv _ _ _ i j Wz) as [Hi Hj]; [rewrite E1; eauto |].
        rewrite Cz2 in E2 by lia. discriminate. }
  rewrite (calculateForces_unfold s), (calculateForces_unfold s2).
  rewrite (bind_eq _ _ s z ()) by exact Ez. rewrite (bind_eq _ _ s2 z2 ()) by exact Ez2.
  rewrite Hz, Hr, Hc, Ht. reflexivity.
Qed.

(** X5.  The forces are rebuilt from nothing: the result of
    [calculateForces] does not depend on the values that [forces] held
    before the call. *)
Theorem calculateForces_ignores_old_forces (s s2 : State) :
  wf s = true → sameButForces s s2 →
  calculateForces s2 = calculateForces s.
Proof. apply calculateForces_same_result. Qed.

Lemma calculateForces_ignores_old_forces_witness :
  calculateForces (setPt Forces 0 1 (7, 8) square_ex) = calculateForces square_ex.
Proof.
  apply (calculateForces_ignores_old_forces square_ex).
  - reflexivity.
  - repeat split.
Defined.

(** X6.  [calculateForces] is idempotent: a second pass directly after the
    first leaves the state of the first. *)
Theorem calculateForces_idempotent (s : State) :
  wf s = true →
  ∃ s', calculateForces s = Some ((), s') ∧
    (calculateForces;; calculateForces) s = Some ((), s').
Proof.
  intros Hw. destruct (calculateForces_balanced s Hw s eq_refl) as ([] & s' & E & Hsame & _).
  exists s'. split; [exact E |].
  rewrite (bind_eq _ _ s s' ()) by exact E.
  rewrite (calculateForces_same_result s s' Hw Hsame). exact E.
Qed.

Lemma calculateForces_idempotent_witness :
  ∃ s', calculateForces square_ex = Some ((), s') ∧
    (calculateForces;; calculateForces) square_ex = Some ((), s').
Proof. apply (calculateForces_idempotent square_ex). reflexivity. Defined.

(** ** The two integrators, point by point and in total *)

(** X7.  One step of [updatePosVerlet] does this to every mass point, with
    [a] the force just accumulated: the previous position becomes the old
    position, the position becomes [2x - px + a h^2] clamped to the padded
    rectangle, and the velocity becomes [(new - px) / (2h)] computed from
    the new position before it is clamped. *)
Theorem updatePosVerlet_point (width height : R) (s : State) (i j : nat) (pt : Pt) :
  wf s = true → (i < rows s)%nat → (j < cols s)%nat →
  view s i j = Some pt →
  ∃ sf a s',
    exec calculateForces s = Some sf ∧ cell (forces sf) i j = Some a ∧
    exec (updatePosVerlet width height) s = Some s' ∧
    let newX := 2 * (ptPos pt).1 - (ptPrev pt).1 + a.1 * timeStep * timeStep in
    let newY := 2 * (ptPos pt).2 - (ptPrev pt).2 + a.2 * timeStep * timeStep in
    cell (prevPositions s') i j = Some (ptPos pt) ∧
    cell (positions s') i j =
      Some (clamp padding (width - padding) newX, clamp padding (height - padding) newY) ∧
    cell (velocities s') i j =
      Some ((newX - (ptPrev pt).1) / (2 * timeStep), (newY - (ptPrev pt).2) / (2 * timeStep)).
Proof.
  intros Hw Hi Hj Hpt.
  destruct (updatePosVerlet_run width height s Hw)
    as (sf & s' & Ef & [Hsame _] & E & _ & _ & Hv).
  destruct (sameButForces_view s sf i j pt Hsame Hw Hi Hj Hpt) as (a & Ha & Hvf).
  specialize (Hv i j Hi Hj). rewrite Hvf in Hv. simpl in Hv.
  exists sf, a, s'. split; [apply (exec_eq _ _ _ _ Ef) |]. split; [exact Ha |].
  split; [apply (exec_eq _ _ _ _ E) |]. cbv zeta.
  destruct pt as [p v f pp].
  split; [apply (view_grid s' i j _ PrevPositions Hv) |].
  split; [apply (view_grid s' i j _ Positions Hv) |].
  apply (view_grid s' i j _ Velocities Hv).
Qed.

Lemma updatePosVerlet_point_witness :
  ∃ sf a s',
    exec calculateForces square_ex = Some sf ∧ cell (forces sf) 0 1 = Some a ∧
    exec (updatePosVerlet 800 600) square_ex = Some s' ∧
    let newX := 2 * 120 - 120 + a.1 * timeStep * timeStep in
    let newY := 2 * 50 - 50 + a.2 * timeStep * timeStep in
    cell (prevPositions s') 0 1 = Some (120, 50) ∧
    cell (positions s') 0 1 =
      Some (clamp padding (800 - padding) newX, clamp padding (600 - padding) newY) ∧
    cell (velocities s') 0 1 =
      Some ((newX - 120) / (2 * timeStep), (newY - 50) / (2 * timeStep)).
Proof.
  apply (updatePosVerlet_point 800 600 square_ex 0 1
           (mkPt (120, 50) (1, 0) (0, 0) (120, 50))).
  - reflexivity.
  - simpl. lia.
  - simpl. lia.
  - reflexivity.
Defined.

Lemma vsum_pointwise (h : R) (l1 l2 l' : list Vec) :
  length l1 = length l2 → length l1 = length l' →
  (∀ j x y, l1 !! j = Some x → l2 !! j = Some y → l' !! j = Some (vadd x (vscale h y))) →
  vsum l' = vadd (vsum l1) (vscale h (vsum l2)).
Proof.
  revert l2 l'. induction l1 as [|x l1 IH]; intros [|y l2] [|z l'] H2 H' H;
    simpl in *; try discriminate.
  - unfold vadd, vscale. simpl. f_equal; ring.
  - specialize (H 0%nat x y eq_refl eq_refl) as H0. injection H0 as ->.
    rewrite (IH l2 l'); [| lia | lia | intros j; apply (H (S j))].
    unfold vadd, vscale. simpl. f_equal; ring.
Qed.

Lemma sumGrid_pointwise (h : R) (g1 g2 g' : Grid) :
  map length g1 = map length g2 → map length g1 = map length g' →
  (∀ i j x y, cell g1 i j = Some x → cell g2 i j = Some y →
              cell g' i j = Some (vadd x (vscale h y))) →
  sumGrid g' = vadd (sumGrid g1) (vscale h (sumGrid g2)).
Proof.
  revert g2 g'. induction g1 as [|r1 g1 IH]; intros [|r2 g2] [|r' g'] H2 H' H;
    simpl in *; try discriminate.
  - unfold sumGrid, vadd, vscale. simpl. f_equal; ring.
  - injection H2 as Hl2 Ht2. injection H' as Hl' Ht'.
    unfold sumGrid in *. simpl.
    rewrite (vsum_pointwise h r1 r2 r' Hl2 Hl'); [| intros j; apply (H 0%nat j)].
    rewrite (IH g2 g' Ht2 Ht'); [| intros i j; apply (H (S i) j)].
    unfold vadd, vscale. simpl. f_equal; ring.
Qed.

Lemma wfGrid_same_shape (r c : nat) (g g' : Grid) :
  wfGrid r c g = true → wfGrid r c g' = true → map length g = map length g'.
Proof.
  assert (H : ∀ g : Grid, wfGrid r c g = true → map length g = replicate r c).
  { intros g0. unfold wfGrid. intros [Hl Hr]%andb_true_iff. apply Nat.eqb_eq in Hl.
    subst r. induction g0 as [|row g0 IH]; simpl in *; [reflexivity |].
    apply andb_true_iff in Hr as [Hrow Hr]. apply Nat.eqb_eq in Hrow.
    rewrite Hrow, (IH Hr). reflexivity. }
  intros H1 H2. rewrite (H g H1), (H g' H2). reflexivity.
Qed.

Lemma wf_grid (s : State) (f : Field) :
  wf s = true → wfGrid (rows s) (cols s) (grid f s) = true.
Proof.
  unfold wf. intros [[[Hp Hv]%andb_true_iff Hf]%andb_true_iff Hpp]%andb_true_iff.
  destruct f; assumption.
Qed.

(** X8.  A step of [updatePositions] conserves the sum of the velocities
    of all mass points (the total momentum: the forces of a pass sum to
    zero), and moves the sum of the positions by [h] times that sum. *)
Theorem updatePositions_conserves_momentum (s : State) :
  wf s = true →
  ∃ s', exec updatePositions s = Some s' ∧
    sumGrid (velocities s') = sumGrid (velocities s) ∧
    sumGrid (positions s') =
      vadd (sumGrid (positions s)) (vscale timeStep (sumGrid (velocities s))).
Proof.
  intros Hw.
  destruct (updatePositions_run s Hw) as (sf & s' & Ef & [Hsame Hsum] & E & Hh & Hw' & Hv).
  assert (Hwf : wf sf = true) by (rewrite (sameButForces_wf s sf Hsame); exact Hw).
  pose proof Hsame as (Hhf & Hp & Hvel & _). injection Hhf as _ Hrf Hcf.
  injection Hh as _ Hr Hc.
  assert (Hpt : ∀ i j, is_Some (cell (velocities s) i j) →
            ∃ pt a, view s i j = Some pt ∧ cell (forces sf) i j = Some a ∧
                    view s' i j = Some (eulerPt (setF Forces a pt))).
  { intros i j Hs.
    destruct (wfGrid_cell_inv _ _ _ i j (wf_grid s Velocities Hw) Hs) as [Hi Hj].
    destruct (wf_view s i j Hw Hi Hj) as [pt Hpt].
    destruct (sameButForces_view s sf i j pt Hsame Hw Hi Hj Hpt) as (a & Ha & Hvf).
    exists pt, a. split; [exact Hpt |]. split; [exact Ha |].
    rewrite (Hv i j Hi Hj), Hvf. reflexivity. }
  assert (Sv : sumGrid (velocities s') = sumGrid (velocities s)).
  { rewrite (sumGrid_pointwise timeStep (velocities s) (forces sf) (velocities s')).
    - rewrite Hsum. unfold vadd, vscale. simpl.
      destruct (sumGrid (velocities s)) as [x y]. simpl. f_equal; ring.
    - apply (wfGrid_same_shape (rows s) (cols s));
        [apply (wf_grid s Velocities Hw) |].
      rewrite <- Hrf, <- Hcf. apply (wf_grid sf Forces Hwf).
    - apply (wfGrid_same_shape (rows s) (cols s));
        [apply (wf_grid s Velocities Hw) |].
      rewrite <- Hr, <- Hc. apply (wf_grid s' Velocities Hw').
    - intros i j x y Hx Hy.
      destruct (Hpt i j) as (pt & a & Hp1 & Ha & Hs'); [rewrite Hx; eauto |].
      pose proof (view_grid s i j pt Velocities Hp1) as E1. simpl in E1.
      pose proof (view_grid s' i j _ Velocities Hs') as E2. simpl in E2.
      rewrite E2. destruct pt. simpl in *. congruence. }
  exists s'. split; [apply (exec_eq _ _ _ _ E) |]. split; [exact Sv |].
  rewrite <- Sv.
  apply (sumGrid_pointwise timeStep (positions s) (velocities s') (positions s')).
  - apply (wfGrid_same_shape (rows s) (cols s)); [apply (wf_grid s Positions Hw) |].
    rewrite <- Hr, <- Hc. apply (wf_grid s' Velocities Hw').
  - apply (wfGrid_same_shape (rows s) (cols s)); [apply (wf_grid s Positions Hw) |].
    rewrite <- Hr, <- Hc. apply (wf_grid s' Positions Hw').
  - intros i j x y Hx Hy.
    assert (Hs : is_Some (cell (velocities s) i j)).
    { apply (wf_cell s Velocities);
        [exact Hw | |];
        apply (wfGrid_cell_inv _ _ _ i j (wf_grid s Positions Hw)); simpl; rewrite Hx; eauto. }
    destruct (Hpt i j Hs) as (pt & a & Hp1 & Ha & Hs').
    pose proof (view_grid s i j pt Positions Hp1) as E1. simpl in E1.
    pose proof (view_grid s' i j _ Velocities Hs') as E2. simpl in E2.
    pose proof (view_grid s' i j _ Positions Hs') as E3. simpl in E3.
    rewrite E3. destruct pt. simpl in *. congruence.
Qed.

Lemma updatePositions_conserves_momentum_witness :
  ∃ s', exec updatePositions square_ex = Some s' ∧
    sumGrid (velocities s') = sumGrid (velocities square_ex) ∧
    sumGrid (positions s') =
      vadd (sumGrid (positions square_ex)) (vscale timeStep (sumGrid (velocities square_ex))).
Proof. apply (updatePositions_conserves_momentum square_ex). reflexivity. Defined.

(** ** The drag handler and runs of events *)

Lemma fmap_id_option {A} (o : option A) : (λ x, x) <$> o = o.
Proof. destruct o; reflexivity. Qed.

(** The whole effect of the drag handler on a point of the grid. *)
Lemma drag_effect (width height : R) (s0 : State) (di dj : nat) (ex ey : R) (pt : Pt) :
  wf s0 = true → (di < rows s0)%nat → (dj < cols s0)%nat → view s0 di dj = Some pt →
  ∃ s', drag width height di dj ex ey s0 = Some ((), s') ∧
    hdr s' = hdr s0 ∧ wf s' = true ∧
    view s' di dj =
      Some (mkPt (clamp padding (width - padding) ex, clamp padding (height - padding) ey)
              (ptVel pt) (ptForce pt)
              (clamp padding (width - padding) ex, clamp padding (height - padding) ey)) ∧
    ∀ i j, (i, j) ≠ (di, dj) → view s' i j = view s0 i j.
Proof.
  intros Hw0 Hi Hj Hpt.
  set (q := (clamp padding (width - padding) ex, clamp padding (height - padding) ey)).
  assert (H : hoare (local di dj s0 pt) (drag width height di dj ex ey)
                (λ _ s, hdr s = hdr s0 ∧ wf s = true ∧
                        view s di dj = Some (mkPt q (ptVel pt) (ptForce pt) q) ∧
                        ∀ i j, (i, j) ≠ (di, dj) → view s i j = view s0 i j)).
  { unfold drag.
    apply hoare_wr_then, hoare_wr_then, hoare_rd_then, hoare_wr_then.
    apply hoare_rd_then, hoare_wr_then.
    intros s1 (Hh & Hw & Hv & Ho).
    pose proof Hh as Hh1. injection Hh1 as _ Hr Hc. rewrite Hw0 in Hw.
    destruct (pointwise_loops (rows s1) (cols s1) (dragSync di dj) (dragSyncPt di dj)
                (λ i j s2 p _ _, dragSync_local di dj i j s2 p) s1
                (λ i j Hi' Hj', wf_view s1 i j Hw Hi' Hj') s1 eq_refl)
      as ([] & s' & E' & Hh' & Hw' & Hv').
    exists (), s'. split.
    - rewrite (bind_eq get _ s1 s1 s1) by reflexivity. exact E'.
    - split; [congruence |]. split; [congruence |]. split.
      + rewrite Hv', Hv. rewrite <- Hr in Hi. rewrite <- Hc in Hj.
        rewrite (proj2 (Nat.ltb_lt _ _) Hi), (proj2 (Nat.ltb_lt _ _) Hj). simpl.
        unfold dragSyncPt. rewrite bool_decide_eq_true_2 by reflexivity.
        destruct pt as [[x y] v f [px py]]. reflexivity.
      + intros i j Hne. rewrite Hv', <- (Ho i j Hne).
        unfold dragSyncPt. rewrite bool_decide_eq_false_2 by exact Hne.
        rewrite fmap_id_option. destruct ((i <? rows s1) && (j <? cols s1)); reflexivity. }
  destruct (H s0 (local_refl di dj s0 pt Hpt)) as ([] & s' & E & Hq).
  exists s'. split; [exact E | exact Hq].
Qed.

(** X9.  The drag handler moves the dragged point only: its position and
    its previous position become the event position clamped to the padded
    rectangle (the event position itself when that lies inside), its
    velocity and force stay as they were, and every other point keeps its
    position, previous position, velocity and force. *)
Theorem drag_moves_one_point
    (width height : R) (s : State) (di dj : nat) (ex ey : R) (pt : Pt) :
  wf s = true → (di < rows s)%nat → (dj < cols s)%nat → view s di dj = Some pt →
  ∃ s' q, exec (drag width height di dj ex ey) s = Some s' ∧
    q = (clamp padding (width - padding) ex, clamp padding (height - padding) ey) ∧
    (inBounds width height (ex, ey) → q = (ex, ey)) ∧
    view s' di dj = Some (mkPt q (ptVel pt) (ptForce pt) q) ∧
    ∀ i j, (i, j) ≠ (di, dj) → view s' i j = view s i j.
Proof.
  intros Hw Hi Hj Hpt.
  destruct (drag_effect width height s di dj ex ey pt Hw Hi Hj Hpt)
    as (s' & E & _ & _ & Hv & Ho).
  eexists s', _. split; [apply (exec_eq _ _ _ _ E) |]. split; [reflexivity |].
  split; [| split; assumption].
  intros [Hx Hy]. simpl in Hx, Hy. rewrite !clamp_id by assumption. reflexivity.
Qed.

Lemma drag_moves_one_point_witness :
  ∃ s' q, exec (drag 800 600 0 1 900 200) square_ex = Some s' ∧
    q = (clamp padding (800 - padding) 900, clamp padding (600 - padding) 200) ∧
    (inBounds 800 600 (900, 200) → q = (900, 200)) ∧
    view s' 0 1 = Some (mkPt q (1, 0) (0, 0) q) ∧
    ∀ i j, (i, j) ≠ (0%nat, 1%nat) → view s' i j = view square_ex i j.
Proof.
  apply (drag_moves_one_point 800 600 square_ex 0 1 900 200
           (mkPt (120, 50) (1, 0) (0, 0) (120, 50))).
  - reflexivity.
  - simpl. lia.
  - simpl. lia.
  - reflexivity.
Defined.

Lemma handle_keeps_wf (width height : R) (s : State) (e : Event) :
  wf s = true → onGrid s e = true →
  ∃ s', handle width height e s = Some ((), s') ∧ wf s' = true ∧ hdr s' = hdr s.
Proof.
  intros Hw He. destruct e as [r m|di dj ex ey]; simpl.
  - unfold simulationLoop. destruct r; simpl; [| exists s; auto].
    destruct (m =? "euler")%string.
    + destruct (updatePositions_run s Hw) as (sf & s' & _ & _ & E & Hh & Hw' & _). eauto.
    + destruct (updatePosVerlet_run width height s Hw)
        as (sf & s' & _ & _ & E & Hh & Hw' & _). eauto.
  - simpl in He. apply andb_true_iff in He as [Hi%Nat.ltb_lt Hj%Nat.ltb_lt].
    destruct (wf_view s di dj Hw Hi Hj) as [pt Hpt].
    destruct (drag_effect width height s di dj ex ey pt Hw Hi Hj Hpt)
      as (s' & E & Hh & Hw' & _). eauto.
Qed.

Lemma forallb_onGrid (s1 s : State) (es : list Event) :
  rows s1 = rows s → cols s1 = cols s → forallb (onGrid s1) es = forallb (onGrid s) es.
Proof.
  intros Hr Hc. induction es as [|e es IH]; simpl; [reflexivity |].
  rewrite IH. f_equal. destruct e; simpl; [reflexivity |]. rewrite Hr, Hc. reflexivity.
Qed.

(** X10.  Well-formedness is an invariant of the running program: from
    arrays of dimensions [rows] x [cols], any sequence of animation frames
    (stopped or running, Euler or Verlet) and of drags of points of the grid
    raises no error, and leaves [rows], [cols], the task and the dimensions
    of the four arrays as they were. *)
Theorem runEvents_keeps_wf (width height : R) (es : list Event) (s : State) :
  wf s = true → forallb (onGrid s) es = true →
  ∃ s', exec (runEvents width height es) s = Some s' ∧
    wf s' = true ∧ task s' = task s ∧ rows s' = rows s ∧ cols s' = cols s.
Proof.
  revert s. induction es as [|e es IH]; intros s Hw Hes.
  - exists s. repeat split; auto.
  - simpl in Hes. apply andb_true_iff in Hes as [He Hes].
    destruct (handle_keeps_wf width height s e Hw He) as (s1 & E1 & Hw1 & Hh1).
    injection Hh1 as Ht Hr Hc.
    destruct (IH s1 Hw1) as (s' & E' & Hw' & Ht' & Hr' & Hc').
    { rewrite (forallb_onGrid s1 s es) by assumption. exact Hes. }
    exists s'. split.
    + unfold exec in *. simpl. rewrite (bind_eq _ _ s s1 ()) by exact E1. exact E'.
    + repeat split; congruence.
Qed.

Lemma runEvents_keeps_wf_witness :
  ∃ s', exec (runEvents 800 600
                [Frame true "euler"; Drag 1 0 10 700; Frame true "verlet"; Frame false "euler"])
          square_ex = Some s' ∧
    wf s' = true ∧ task s' = task square_ex ∧ rows s' = rows square_ex ∧
    cols s' = cols square_ex.
Proof.
  apply (runEvents_keeps_wf 800 600
           [Frame true "euler"; Drag 1 0 10 700; Frame true "verlet"; Frame false "euler"]
           square_ex); reflexivity.
Defined.

(** ** The state that initializeGrid builds *)

Lemma upd_None (f : Field) (i j : nat) (c : Ix) (h : R → R) (s : State) :
  cell (grid f s) i j = None → upd f i j c h s = None.
Proof.
  intros H. unfold upd, rd, rdVec, mbind, M_bind, get, liftO. rewrite H. reflexivity.
Qed.

Lemma cell_buildGrid_None (r c : nat) (f : nat → nat → Vec) (i j : nat) :
  (r ≤ i ∨ c ≤ j)%nat → cell (buildGrid r c f) i j = None.
Proof.
  intros H. destruct (cell (buildGrid r c f) i j) as [v|] eqn:E; [| reflexivity].
  destruct (wfGrid_cell_inv r c _ i j (wfGrid_buildGrid r c f)) as [Hi Hj];
    [rewrite E; eauto | lia].
Qed.

Lemma shift_x (v : Vec) (d : R) :
  setComp I0 ((λ x, x + d) (comp I0 v)) v = vadd v (d, 0).
Proof. destruct v as [x y]. unfold setComp, comp, vadd. simpl. f_equal; lra. Qed.

Lemma shift_y (v : Vec) (d : R) :
  setComp I1 ((λ y, y - d) (comp I1 v)) v = vadd v (0, - d).
Proof. destruct v as [x y]. unfold setComp, comp, vadd. simpl. f_equal; lra. Qed.

(** The state built from the lattice, before the disturbance. *)
Lemma initializeGrid_unfold (width height : R) (s : State) :
  initializeGrid width height s =
  (let '(r, c) := presetSize s in
   let t := task s in
   modify (λ _, mkState t r c (buildGrid r c (lattice width height r c))
                  (buildGrid r c (λ _ _, (0, 0))) (buildGrid r c (λ _ _, (0, 0)))
                  (buildGrid r c (lattice width height r c)));;
   when (t =? "1")%string (upd Positions 0 1 I0 (λ x, x + 20));;
   when (t =? "2")%string (upd Positions 0 1 I1 (λ y, y - 30));;
   when (t =? "3")%string (upd Positions 0 1 I1 (λ y, y - 30));;
   when (t =? "4")%string (upd Positions 1 1 I1 (λ y, y - 40));;
   when (t =? "5")%string (upd Positions 0 (c / 2) I1 (λ y, y - 40))) s.
Proof.
  unfold initializeGrid, presetSize. rewrite (bind_eq get _ s s s) by reflexivity.
  destruct (task s =? "1")%string; [reflexivity |].
  destruct (task s =? "2")%string; [reflexivity |].
  destruct (task s =? "3")%string; [reflexivity |].
  destruct (task s =? "4")%string; reflexivity.
Qed.

Ltac eqb_lit :=
  repeat match goal with
  | |- context [String.eqb ?a ?b] =>
      let v := eval vm_compute in (String.eqb a b) in
      match v with
      | true => change (String.eqb a b) with true
      | false => change (String.eqb a b) with false
      end
  end.

Lemma disturb_run (t : string) (r c : nat) (s1 : State) (L : nat → nat → Vec) :
  positions s1 = buildGrid r c L →
  (∀ i0 j0, disturbedPoint t c = Some (i0, j0) → (i0 < r ∧ j0 < c)%nat) →
  (when (t =? "1")%string (upd Positions 0 1 I0 (λ x, x + 20));;
   when (t =? "2")%string (upd Positions 0 1 I1 (λ y, y - 30));;
   when (t =? "3")%string (upd Positions 0 1 I1 (λ y, y - 30));;
   when (t =? "4")%string (upd Positions 1 1 I1 (λ y, y - 40));;
   when (t =? "5")%string (upd Positions 0 (c / 2) I1 (λ y, y - 40))) s1 =
  Some ((), match disturbedPoint t c with
            | Some (i0, j0) =>
                setPt Positions i0 j0 (vadd (L i0 j0) (disturbance t)) s1
            | None => s1
            end).
Proof.
  intros Hpos Hin.
  assert (Hupd : ∀ i0 j0 ix h, (i0 < r ∧ j0 < c)%nat →
            upd Positions i0 j0 ix h s1 =
            Some ((), setPt Positions i0 j0 (setComp ix (h (comp ix (L i0 j0))) (L i0 j0)) s1)).
  { intros i0 j0 ix h [Hi Hj]. apply upd_eq. cbn [grid]. rewrite Hpos.
    apply cell_buildGrid; assumption. }
  unfold disturbedPoint, disturbance in *.
  destruct (String.eqb_spec t "1") as [->|N1].
  { eqb_lit. unfold when. rewrite (bind_eq _ _ s1 _ ()) by (apply Hupd, Hin; reflexivity).
    cbv beta. rewrite shift_x. reflexivity. }
  destruct (String.eqb_spec t "2") as [->|N2].
  { eqb_lit. unfold when. rewrite (bind_eq _ _ s1 s1 ()) by reflexivity.
    rewrite (bind_eq _ _ s1 _ ()) by (apply Hupd, Hin; reflexivity).
    cbv beta. rewrite shift_y. reflexivity. }
  destruct (String.eqb_spec t "3") as [->|N3].
  { eqb_lit. unfold when. do 2 rewrite (bind_eq _ _ s1 s1 ()) by reflexivity.
    rewrite (bind_eq _ _ s1 _ ()) by (apply Hupd, Hin; reflexivity).
    cbv beta. rewrite shift_y. reflexivity. }
  destruct (String.eqb_spec t "4") as [->|N4].
  { eqb_lit. unfold when. do 3 rewrite (bind_eq _ _ s1 s1 ()) by reflexivity.
    rewrite (bind_eq _ _ s1 _ ()) by (apply Hupd, Hin; reflexivity).
    cbv beta. rewrite shift_y. reflexivity. }
  destruct (String.eqb_spec t "5") as [->|N5].
  { unfold when. do 4 rewrite (bind_eq _ _ s1 s1 ()) by reflexivity.
    rewrite Hupd by (apply Hin; reflexivity). cbv beta. rewrite shift_y. reflexivity. }
  reflexivity.
Qed.

Lemma disturbedPoint_on_grid (s : State) (r c i0 j0 : nat) :
  (task s = "5"%string → (1 ≤ rows s ∧ 1 ≤ cols s)%nat) →
  presetSize s = (r, c) → disturbedPoint (task s) c = Some (i0, j0) →
  (i0 < r ∧ j0 < c)%nat.
Proof.
  unfold presetSize, disturbedPoint. intros Hv.
  destruct (task s =? "1")%string; [intros [= <- <-] [= <- <-]; lia |].
  destruct (task s =? "2")%string; [intros [= <- <-] [= <- <-]; lia |].
  destruct (task s =? "3")%string; [intros [= <- <-] [= <- <-]; lia |].
  destruct (task s =? "4")%string; [intros [= <- <-] [= <- <-]; lia |].
  destruct (String.eqb_spec (task s) "5") as [E|N]; [| discriminate].
  destruct (Hv E) as [Hr Hc]. intros [= <- <-] [= <- <-].
  split; [lia | exact (Nat.div_lt (cols s) 2 ltac:(lia) ltac:(lia))].
Qed.

(** The state after [initializeGrid]: the lattice in [positions] and
    [prevPositions], zeros in [velocities] and [forces], and then the offset
    of the preset added to the position of its point. *)
Lemma initializeGrid_result (width height : R) (s : State) :
  (task s = "5"%string → (1 ≤ rows s ∧ 1 ≤ cols s)%nat) →
  ∃ r c, presetSize s = (r, c) ∧
    (∀ i0 j0, disturbedPoint (task s) c = Some (i0, j0) → (i0 < r ∧ j0 < c)%nat) ∧
    initializeGrid width height s =
    Some ((), match disturbedPoint (task s) c with
              | Some (i0, j0) =>
                  setPt Positions i0 j0
                    (vadd (lattice width height r c i0 j0) (disturbance (task s)))
              | None => λ s1, s1
              end
                (mkState (task s) r c (buildGrid r c (lattice width height r c))
                   (buildGrid r c (λ _ _, (0, 0))) (buildGrid r c (λ _ _, (0, 0)))
                   (buildGrid r c (lattice width height r c)))).
Proof.
  intros Hv. rewrite initializeGrid_unfold.
  destruct (presetSize s) as [r c] eqn:Hsize. exists r, c.
  split; [reflexivity |].
  assert (Hin : ∀ i0 j0, disturbedPoint (task s) c = Some (i0, j0) → (i0 < r ∧ j0 < c)%nat).
  { intros i0 j0. apply (disturbedPoint_on_grid s r c i0 j0 Hv Hsize). }
  split; [exact Hin |]. cbv zeta.
  match goal with
  | |- (modify ?f ≫= ?k) s = _ => rewrite (bind_eq (modify f) k s (f s) ()) by reflexivity
  end.
  cbv beta. rewrite (disturb_run (task s) r c _ (lattice width height r c)).
  - destruct (disturbedPoint (task s) c) as [[i0 j0]|]; reflexivity.
  - reflexivity.
  - exact Hin.
Qed.

Lemma wf_built (width height : R) (t : string) (r c : nat) :
  wf (mkState t r c (buildGrid r c (lattice width height r c))
        (buildGrid r c (λ _ _, (0, 0))) (buildGrid r c (λ _ _, (0, 0)))
        (buildGrid r c (lattice width height r c))) = true.
Proof. unfold wf. simpl. rewrite !wfGrid_buildGrid. reflexivity. Qed.

(** X13.  [initializeGrid] builds a well-formed grid.  For the tasks 1 to
    4, and for any other task as long as task 5 comes with at least one row
    and one column, it raises no error, keeps the task, gives the four
    arrays the dimensions [rows] x [cols], and sets these to 1 x 2 (task 1),
    2 x 2 (tasks 2 and 3), 3 x 3 (task 4) or leaves them as chosen. *)
Theorem initializeGrid_builds_grid (width height : R) (s : State) :
  (task s = "5"%string → (1 ≤ rows s ∧ 1 ≤ cols s)%nat) →
  ∃ s', initializeGrid width height s = Some ((), s') ∧
    wf s' = true ∧ task s' = task s ∧
    (task s = "1"%string → rows s' = 1%nat ∧ cols s' = 2%nat) ∧
    (task s = "2"%string ∨ task s = "3"%string → rows s' = 2%nat ∧ cols s' = 2%nat) ∧
    (task s = "4"%string → rows s' = 3%nat ∧ cols s' = 3%nat) ∧
    (task s ≠ "1"%string → task s ≠ "2"%string → task s ≠ "3"%string →
     task s ≠ "4"%string → rows s' = rows s ∧ cols s' = cols s).
Proof.
  intros Hv. destruct (initializeGrid_result width height s Hv) as (r & c & Hsize & _ & E).
  eexists. split; [exact E |].
  assert (Hh : ∀ D : State → State,
            (D = (λ s1, s1) ∨ ∃ i0 j0 v, D = setPt Positions i0 j0 v) →
            ∀ s1, wf (D s1) = wf s1 ∧ hdr (D s1) = hdr s1).
  { intros D [->|(i0 & j0 & v & ->)] s1; [split; reflexivity |].
    split; [apply wf_setPt | apply hdr_setPt]. }
  match goal with
  | |- wf (?D ?st) = true ∧ _ =>
      assert (HD : D = (λ s1, s1) ∨ ∃ i0 j0 v, D = setPt Positions i0 j0 v)
        by (destruct (disturbedPoint (task s) c) as [[i0 j0]|]; eauto 6);
      destruct (Hh D HD st) as [Hw Hd]
  end.
  split; [rewrite Hw; apply wf_built |].
  injection Hd as Ht Hr Hc. simpl in Ht, Hr, Hc.
  split; [exact Ht |]. rewrite Hr, Hc. clear E Hw Ht Hr Hc Hh HD.
  unfold presetSize in Hsize.
  split; [intros E; rewrite E in Hsize; injection Hsize as <- <-; split; reflexivity |].
  split; [intros [E|E]; rewrite E in Hsize; injection Hsize as <- <-; split; reflexivity |].
  split; [intros E; rewrite E in Hsize; injection Hsize as <- <-; split; reflexivity |].
  intros N1 N2 N3 N4.
  rewrite (proj2 (String.eqb_neq _ _) N1), (proj2 (String.eqb_neq _ _) N2),
    (proj2 (String.eqb_neq _ _) N3), (proj2 (String.eqb_neq _ _) N4) in Hsize.
  injection Hsize as <- <-. split; reflexivity.
Qed.

Lemma initializeGrid_builds_grid_witness :
  ∃ s', initializeGrid 800 600 free_ex = Some ((), s') ∧
    wf s' = true ∧ task s' = task free_ex ∧
    (task free_ex = "1"%string → rows s' = 1%nat ∧ cols s' = 2%nat) ∧
    (task free_ex = "2"%string ∨ task free_ex = "3"%string →
     rows s' = 2%nat ∧ cols s' = 2%nat) ∧
    (task free_ex = "4"%string → rows s' = 3%nat ∧ cols s' = 3%nat) ∧
    (task free_ex ≠ "1"%string → task free_ex ≠ "2"%string → task free_ex ≠ "3"%string →
     task free_ex ≠ "4"%string → rows s' = rows free_ex ∧ cols s' = cols free_ex).
Proof.
  apply (initializeGrid_builds_grid 800 600 free_ex). intros _. simpl. lia.
Defined.

(** X14.  With task 5 and no row or no column, [initializeGrid] raises a
    TypeError: the point of the top row that the preset lifts does not
    exist. *)
Theorem initializeGrid_empty_grid_throws (width height : R) (s : State) :
  task s = "5"%string → (rows s = 0 ∨ cols s = 0)%nat →
  initializeGrid width height s = None.
Proof.
  intros E H. rewrite initializeGrid_unfold. unfold presetSize. rewrite E. eqb_lit.
  cbv iota zeta.
  match goal with
  | |- (modify ?f ≫= ?k) s = _ => rewrite (bind_eq (modify f) k s (f s) ()) by reflexivity
  end.
  unfold when. do 4 rewrite (bind_eq (mret ()) _ _ _ ()) by reflexivity.
  apply upd_None. cbn [grid positions]. apply cell_buildGrid_None.
  destruct H as [H|H]; rewrite H; [left; lia | right; lia].
Qed.

Lemma initializeGrid_empty_grid_throws_witness :
  initializeGrid 800 600 (blank "5") = None.
Proof.
  apply (initializeGrid_empty_grid_throws 800 600 (blank "5")).
  - reflexivity.
  - left. reflexivity.
Defined.

(** The points of the state that [initializeGrid] builds. *)
Lemma initializeGrid_points (width height : R) (s : State) :
  (task s = "5"%string → (1 ≤ rows s ∧ 1 ≤ cols s)%nat) →
  ∃ s', initializeGrid width height s = Some ((), s') ∧
    ∀ i j, (i < rows s')%nat → (j < cols s')%nat →
      cell (prevPositions s') i j = Some (lattice width height (rows s') (cols s') i j) ∧
      cell (velocities s') i j = Some (0, 0) ∧
      cell (forces s') i j = Some (0, 0) ∧
      cell (positions s') i j =
        Some (if bool_decide (disturbedPoint (task s) (cols s') = Some (i, j))
              then vadd (lattice width height (rows s') (cols s') i j) (disturbance (task s))
              else lattice width height (rows s') (cols s') i j).
Proof.
  intros Hv. destruct (initializeGrid_result width height s Hv) as (r & c & _ & Hin & E).
  eexists. split; [exact E |].
  destruct (disturbedPoint (task s) c) as [[i0 j0]|] eqn:Hd; simpl; intros i j Hi Hj.
  - rewrite Hd.
    split; [apply cell_buildGrid; assumption |].
    split; [apply cell_buildGrid; assumption |].
    split; [apply cell_buildGrid; assumption |].
    destruct (bool_decide_reflect (Some (i0, j0) = Some (i, j))) as [[= -> ->]|Hne].
    + eapply cell_setCell_eq. apply cell_buildGrid; assumption.
    + rewrite cell_setCell_ne by congruence. apply cell_buildGrid; assumption.
  - rewrite Hd.
    split; [apply cell_buildGrid; assumption |].
    split; [apply cell_buildGrid; assumption |].
    split; [apply cell_buildGrid; assumption |].
    rewrite bool_decide_eq_false_2 by discriminate. apply cell_buildGrid; assumption.
Qed.

(** X15.  After [initializeGrid] every velocity and every force is (0, 0),
    and every mass point has its position equal to its previous position,
    except the one point that the preset of the task moves: the position of
    that point is its previous position plus the offset of the preset. *)
Theorem initializeGrid_initial_state (width height : R) (s : State) :
  (task s = "5"%string → (1 ≤ rows s ∧ 1 ≤ cols s)%nat) →
  ∃ s', initializeGrid width height s = Some ((), s') ∧
    ∀ i j, (i < rows s')%nat → (j < cols s')%nat →
      ∃ q, cell (prevPositions s') i j = Some q ∧
        cell (velocities s') i j = Some (0, 0) ∧
        cell (forces s') i j = Some (0, 0) ∧
        cell (positions s') i j =
          Some (if bool_decide (disturbedPoint (task s) (cols s') = Some (i, j))
                then vadd q (disturbance (task s)) else q).
Proof.
  intros Hv. destruct (initializeGrid_points width height s Hv) as (s' & E & H).
  exists s'. split; [exact E |]. intros i j Hi Hj.
  destruct (H i j Hi Hj) as (H1 & H2 & H3 & H4). eauto 6.
Qed.

Lemma initializeGrid_initial_state_witness :
  ∃ s', initializeGrid 800 600 free_ex = Some ((), s') ∧
    ∀ i j, (i < rows s')%nat → (j < cols s')%nat →
      ∃ q, cell (prevPositions s') i j = Some q ∧
        cell (velocities s') i j = Some (0, 0) ∧
        cell (forces s') i j = Some (0, 0) ∧
        cell (positions s') i j =
          Some (if bool_decide (disturbedPoint (task free_ex) (cols s') = Some (i, j))
                then vadd q (disturbance (task free_ex)) else q).
Proof.
  apply (initializeGrid_initial_state 800 600 free_ex). intros _. simpl. lia.
Defined.

Lemma lattice_inBounds (width height : R) (r c i j : nat) :
  2 * padding <= width → 2 * padding <= height → (i < r)%nat → (j < c)%nat →
  inBounds width height (lattice width height r c i j).
Proof.
  intros Hwd Hht Hi Hj. unfold lattice, inBounds. cbn [fst snd].
  assert (Hstep : ∀ (n k : nat) (len : R), 0 <= len → (k < n)%nat →
            0 <= INR k * (if (1 <? n)%nat then len / (INR n - 1) else 0) <= len ∧
            (INR n - 1) * (if (1 <? n)%nat then len / (INR n - 1) else 0)
            = if (1 <? n)%nat then len else 0).
  { intros n k len Hlen Hk. destruct (Nat.ltb_spec 1 n) as [Hn|Hn].
    - assert (Hd : 0 < INR n - 1).
      { apply lt_INR in Hn. simpl in Hn. lra. }
      assert (Hk' : 0 <= INR k <= INR n - 1).
      { split; [apply pos_INR |].
        assert (H : (k <= n - 1)%nat) by lia. apply le_INR in H.
        rewrite minus_INR in H by lia. simpl in H. exact H. }
      assert (Hu : (INR n - 1) * (len / (INR n - 1)) = len) by (field; lra).
      assert (Hu0 : 0 <= len / (INR n - 1)).
      { apply Rmult_le_pos; [exact Hlen |]. left. apply Rinv_0_lt_compat, Hd. }
      split; [| exact Hu]. split; nra.
    - assert (k = 0%nat) by lia. subst k. simpl. split; [| ring]. split; lra. }
  destruct (Hstep c j (width - 2 * padding)) as [[Hx1 Hx2] _]; [lra | exact Hj |].
  destruct (Hstep r i (height - 2 * padding)) as [[Hy1 Hy2] Hy3]; [lra | exact Hi |].
  split; [lra |].
  replace ((INR r - 1) * (if (1 <? r)%nat then (height - 2 * padding) / (INR r - 1) else 0) / 2)
    with ((if (1 <? r)%nat then height - 2 * padding else 0) / 2)
    by (rewrite Hy3; reflexivity).
  destruct (Nat.ltb_spec 1 r) as [Hr|Hr]; lra.
Qed.

(** X16.  In exact arithmetic, and in a drawing area that contains the
    padded rectangle, the lattice that [initializeGrid] lays out lies inside
    the padded rectangle: every previous position after [initializeGrid],
    and every position except that of the point moved by the preset.  (This
    is a statement about real numbers: computed in doubles, a coordinate of
    the lattice can miss a bound by a rounding error.) *)
Theorem initializeGrid_lattice_in_bounds (width height : R) (s : State) :
  2 * padding <= width → 2 * padding <= height →
  (task s = "5"%string → (1 ≤ rows s ∧ 1 ≤ cols s)%nat) →
  ∃ s', initializeGrid width height s = Some ((), s') ∧
    ∀ i j, (i < rows s')%nat → (j < cols s')%nat →
      ∃ q p, cell (prevPositions s') i j = Some q ∧ inBounds width height q ∧
        cell (positions s') i j = Some p ∧
        (disturbedPoint (task s) (cols s') ≠ Some (i, j) → inBounds width height p).
Proof.
  intros Hwd Hht Hv. destruct (initializeGrid_points width height s Hv) as (s' & E & H).
  exists s'. split; [exact E |]. intros i j Hi Hj.
  destruct (H i j Hi Hj) as (H1 & _ & _ & H4).
  eexists _, _. split; [exact H1 |].
  split; [apply lattice_inBounds; assumption |]. split; [exact H4 |].
  intros Hne. rewrite bool_decide_eq_false_2 by exact Hne.
  apply lattice_inBounds; assumption.
Qed.

Lemma initializeGrid_lattice_in_bounds_witness :
  ∃ s', initializeGrid 800 600 free_ex = Some ((), s') ∧
    ∀ i j, (i < rows s')%nat → (j < cols s')%nat →
      ∃ q p, cell (prevPositions s') i j = Some q ∧ inBounds 800 600 q ∧
        cell (positions s') i j = Some p ∧
        (disturbedPoint (task free_ex) (cols s') ≠ Some (i, j) → inBounds 800 600 p).
Proof.
  apply (initializeGrid_lattice_in_bounds 800 600 free_ex).
  - unfold padding. lra.
  - unfold padding. lra.
  - intros _. simpl. lia.
Defined.

(** ** The direction of the spring force *)

Lemma distance_nonneg (p q : Vec) : 0 <= distance p q.
Proof. unfold distance. apply sqrt_pos. Qed.

(** X17.  Hooke's law with the sign of the code.  Between two points
    without relative velocity, at nonzero distance, one call adds
    [lambda (posB - posA)] to the force of pointA and subtracts it from the
    force of pointB, with [lambda = k (dist - L0) / (mass dist)]: for a
    positive stiffness a stretched spring pulls the two points together and
    a compressed spring pushes them apart. *)
Theorem applySpring_hooke (s : State) (i1 j1 i2 j2 : nat) (L0 k b : R) (a c : Pt) :
  view s i1 j1 = Some a → view s i2 j2 = Some c →
  distance (ptPos a) (ptPos c) ≠ 0 →
  vsub (ptVel c) (ptVel a) = (0, 0) →
  0 < k →
  ∃ s' lambda, exec (applySpring i1 j1 i2 j2 L0 k b) s = Some s' ∧
    lambda = k * (distance (ptPos a) (ptPos c) - L0) / (mass * distance (ptPos a) (ptPos c)) ∧
    (L0 < distance (ptPos a) (ptPos c) → 0 < lambda) ∧
    (distance (ptPos a) (ptPos c) < L0 → lambda < 0) ∧
    cell (forces s') i1 j1 =
      Some (vadd (ptForce a) (vscale lambda (vsub (ptPos c) (ptPos a)))) ∧
    cell (forces s') i2 j2 =
      Some (vsub (ptForce c) (vscale lambda (vsub (ptPos c) (ptPos a)))).
Proof.
  intros Ha Hc Hd Hv Hk.
  destruct (applySpring_points s i1 j1 i2 j2 L0 k b a c Ha Hc Hd) as (s' & E & HA & HB).
  pose proof (distance_nonneg (ptPos a) (ptPos c)) as Hd0.
  assert (Hdpos : 0 < distance (ptPos a) (ptPos c)) by lra.
  assert (Hm : 0 < mass * distance (ptPos a) (ptPos c)).
  { apply Rmult_lt_0_compat; [unfold mass; lra | exact Hdpos]. }
  assert (HF : springForceOverMass a c L0 k b =
               vscale (k * (distance (ptPos a) (ptPos c) - L0)
                       / (mass * distance (ptPos a) (ptPos c)))
                 (vsub (ptPos c) (ptPos a))).
  { unfold springForceOverMass, forceOverMass, totalForce, unitDir, vscale, vsub.
    unfold vsub in Hv. injection Hv as Hx Hy. cbn [fst snd]. rewrite Hx, Hy.
    f_equal; field; split; try lra; unfold mass; lra. }
  eexists s', _. split; [apply (exec_eq _ _ _ _ E) |]. split; [reflexivity |].
  split; [| split; [| split]].
  - intros Hl. apply Rdiv_lt_0_compat; [| exact Hm]. apply Rmult_lt_0_compat; lra.
  - intros Hl.
    assert (H : 0 < k * (L0 - distance (ptPos a) (ptPos c))
                    / (mass * distance (ptPos a) (ptPos c))).
    { apply Rdiv_lt_0_compat; [| exact Hm]. apply Rmult_lt_0_compat; lra. }
    replace (k * (distance (ptPos a) (ptPos c) - L0) / (mass * distance (ptPos a) (ptPos c)))
      with (- (k * (L0 - distance (ptPos a) (ptPos c))
                 / (mass * distance (ptPos a) (ptPos c))))
      by (unfold Rdiv; ring).
    lra.
  - rewrite HA, HF. reflexivity.
  - rewrite HB, HF. reflexivity.
Qed.

Lemma applySpring_hooke_witness :
  ∃ s' lambda,
    exec (applySpring 0 0 0 1 50 20 (1 / 10)) (twoPoints (0, 0) (0 + 100, 0)) = Some s' ∧
    lambda = 20 * (distance (0, 0) (0 + 100, 0) - 50) / (mass * distance (0, 0) (0 + 100, 0)) ∧
    (50 < distance (0, 0) (0 + 100, 0) → 0 < lambda) ∧
    (distance (0, 0) (0 + 100, 0) < 50 → lambda < 0) ∧
    cell (forces s') 0 0 =
      Some (vadd (0, 0) (vscale lambda (vsub (0 + 100, 0) (0, 0)))) ∧
    cell (forces s') 0 1 =
      Some (vsub (0, 0) (vscale lambda (vsub (0 + 100, 0) (0, 0)))).
Proof.
  apply (applySpring_hooke (twoPoints (0, 0) (0 + 100, 0)) 0 0 0 1 50 20 (1 / 10)
           stretchedA stretchedB).
  - reflexivity.
  - reflexivity.
  - unfold stretchedA, stretchedB. simpl. rewrite distance_horizontal; lra.
  - unfold vsub. simpl. f_equal; lra.
  - lra.
Defined.

(** ** The circles drawn *)

Lemma concat_lookup_uniform (c : nat) (g : Grid) (i j : nat) :
  Forall (λ row, length row = c) g → (j < c)%nat →
  concat g !! (i * c + j)%nat = cell g i j.
Proof.
  intros Hg Hj. revert i. induction Hg as [|row g Hrow _ IH]; intros i.
  - unfold cell. simpl. rewrite !lookup_nil. reflexivity.
  - destruct i as [|i]; simpl.
    + unfold cell. simpl. apply lookup_app_l. lia.
    + rewrite lookup_app_r by lia.
      replace (c + i * c + j - length row)%nat with (i * c + j)%nat by lia.
      rewrite IH. reflexivity.
Qed.

Lemma concat_length_uniform (c : nat) (g : Grid) :
  Forall (λ row, length row = c) g → length (concat g) = (length g * c)%nat.
Proof.
  induction 1 as [|row g Hrow _ IH]; simpl; [reflexivity |].
  rewrite length_app, IH, Hrow. reflexivity.
Qed.

(** X18.  One circle for every mass point: on a well-formed grid
    [drawNodes] binds [rows * cols] points to the circles, and the circle
    number [i * cols + j] is drawn at the position of the point [(i, j)]. *)
Theorem drawNodes_row_major (s : State) :
  wf s = true →
  length (drawNodes s) = (rows s * cols s)%nat ∧
  ∀ i j, (i < rows s)%nat → (j < cols s)%nat →
    drawNodes s !! (i * cols s + j)%nat = cell (positions s) i j ∧
    is_Some (cell (positions s) i j).
Proof.
  intros Hw. pose proof (wf_grid s Positions Hw) as Hg. simpl in Hg.
  unfold wfGrid in Hg. apply andb_true_iff in Hg as [Hl Hr]. apply Nat.eqb_eq in Hl.
  assert (HF : Forall (λ row : list Vec, length row = cols s) (positions s)).
  { apply Forall_forall. intros row Hin. rewrite forallb_forall in Hr.
    apply Nat.eqb_eq, Hr, list_elem_of_In, Hin. }
  unfold drawNodes. split.
  - rewrite (concat_length_uniform (cols s)), Hl by exact HF. reflexivity.
  - intros i j Hi Hj. split; [apply concat_lookup_uniform; assumption |].
    apply (wf_cell s Positions i j Hw Hi Hj).
Qed.

Lemma drawNodes_row_major_witness :
  length (drawNodes square_ex) = (rows square_ex * cols square_ex)%nat ∧
  ∀ i j, (i < rows square_ex)%nat → (j < cols square_ex)%nat →
    drawNodes square_ex !! (i * cols square_ex + j)%nat = cell (positions square_ex) i j ∧
    is_Some (cell (positions square_ex) i j).
Proof. apply (drawNodes_row_major square_ex). reflexivity. Defined.
